(** * SCJingleConverter: the score compiler of [composition.cpp]

    A shallow embedding of [Composition] (Jingle/SCJingleConverter): the
    MusicXML event handlers ([parse], [parseXmlNote], [parseXmlBackup],
    [parseXmlPitch]), the channel/range setters, the EEPROM usage estimate
    ([getMemUsage]) and the serial downloader ([noteToCmd], [download]).

    Conventions of the embedding
    - [uint32_t] and [int] values are [Z]; unsigned arithmetic that can
      leave the range is wrapped with [wrap32].
    - [float] and [double] values are [spec_float] with the binary32 and
      binary64 formats of the Standard Library's [SpecFloat].
    - [QVector]/[QStack] are lists; indexing uses stdpp's [!!] and [<[_:=_]>].
    - a member function becomes a function from the object before the call
      to a [result] holding the return value and the object after it. *)

From Stdlib Require Import ZArith String Ascii List Lia Bool.
From Stdlib Require Import Floats.SpecFloat.
From stdpp Require Import base list.

Import ListNotations.
Local Open Scope string_scope.
Local Open Scope list_scope.
Local Open Scope Z_scope.

(** ** Outcomes of running a piece of the source *)

(** [Ok a]: the code returns [a].  [Undef]: the code leaves defined C++
    behaviour (a container indexed out of its bounds, [top()] of an empty
    stack, a floating point value converted to an integer type that cannot
    hold it, signed overflow).  [Loops]: the code never returns (a
    [while(1)] that keeps reading after the reader ran out of tokens). *)
Inductive result (A : Type) : Type :=
| Ok (a : A)
| Undef
| Loops.
Arguments Ok {A} a.
Arguments Undef {A}.
Arguments Loops {A}.

Definition bind {A B : Type} (k : A -> result B) (r : result A) : result B :=
  match r with
  | Ok a => k a
  | Undef => Undef
  | Loops => Loops
  end.

(** [result] is a monad; stdpp's [x ← r; k] notation sequences it. *)
#[global] Instance result_ret : MRet result := @Ok.
#[global] Instance result_bind : MBind result := @bind.

Definition of_option {A : Type} (o : option A) : result A :=
  match o with
  | Some a => Ok a
  | None => Undef
  end.

(** ** Machine integers *)

Definition wrap32 (z : Z) : Z := z mod 2 ^ 32.

Definition is_uint32 (z : Z) : Prop := 0 <= z < 2 ^ 32.

Definition is_int (z : Z) : Prop := - 2 ^ 31 <= z < 2 ^ 31.

(** [int] arithmetic: a result outside the range is undefined. *)
Definition check_int (z : Z) : result Z :=
  if (- 2 ^ 31 <=? z) && (z <? 2 ^ 31) then Ok z else Undef.

(** ** Floating point *)

Module FP.

Definition float : Type := spec_float.
Definition double : Type := spec_float.

Definition mulf : float -> float -> float := SFmul 24 128.
Definition divf : float -> float -> float := SFdiv 24 128.
Definition muld : double -> double -> double := SFmul 53 1024.
Definition divd : double -> double -> double := SFdiv 53 1024.

(** Integer to [float] / [double] conversion (round to nearest even). *)
Definition float_of_Z (z : Z) : float := binary_normalize 24 128 z 0 false.
Definition double_of_Z (z : Z) : double := binary_normalize 53 1024 z 0 false.

(** [static_cast<float>] of a [double]. *)
Definition float_of_double (d : double) : float :=
  match d with
  | S754_finite s m e => binary_normalize 24 128 (cond_Zopp s (Zpos m)) e s
  | _ => d
  end.

(** The decimal literal [n / d] as the nearest [double]; [n] and [d] are
    exactly representable, so the correctly rounded quotient is the
    value the compiler gives the literal. *)
Definition double_literal (n d : Z) : double :=
  divd (double_of_Z n) (double_of_Z d).

(** Truncation toward zero, the integer part of a finite value. *)
Definition trunc (x : spec_float) : option Z :=
  match x with
  | S754_zero _ => Some 0
  | S754_finite s m e =>
      Some (cond_Zopp s (if 0 <=? e then Zpos m * 2 ^ e
                         else Zpos m / 2 ^ (- e)))
  | S754_infinity _ | S754_nan => None
  end.

(** [static_cast<uint32_t>]: defined when the truncated value fits. *)
Definition to_uint32 (x : spec_float) : result Z :=
  match trunc x with
  | Some z => if (0 <=? z) && (z <? 2 ^ 32) then Ok z else Undef
  | None => Undef
  end.

(** [static_cast<int>]: defined when the truncated value fits. *)
Definition to_int (x : spec_float) : result Z :=
  match trunc x with
  | Some z => check_int z
  | None => Undef
  end.

Definition zero : float := S754_zero false.
Definition one : float := float_of_Z 1.

End FP.

(** ** Qt text helpers *)

Module Qt.

Definition digit_of_ascii (a : ascii) : option Z :=
  let n := Z.of_N (N_of_ascii a) in
  if (48 <=? n) && (n <=? 57) then Some (n - 48) else None.

Fixpoint digits_value (acc : Z) (s : string) : option Z :=
  match s with
  | EmptyString => Some acc
  | String a s' =>
      match digit_of_ascii a with
      | Some d => digits_value (10 * acc + d) s'
      | None => None
      end
  end.

Definition decimal (s : string) : option Z :=
  match s with
  | EmptyString => None
  | _ => digits_value 0 s
  end.

(** [QStringRef::toUInt()] on plain decimal text: the value when it fits
    [uint], 0 when the conversion fails. *)
Definition toUInt (s : string) : Z :=
  match decimal s with
  | Some v => if v <? 2 ^ 32 then v else 0
  | None => 0
  end.

(** [QStringRef::toInt()] on decimal text with an optional sign. *)
Definition toInt (s : string) : Z :=
  let signed (neg : bool) (t : string) :=
    match decimal t with
    | Some v =>
        let z := if neg then - v else v in
        if (- 2 ^ 31 <=? z) && (z <? 2 ^ 31) then z else 0
    | None => 0
    end in
  match s with
  | String "-"%char t => signed true t
  | String "+"%char t => signed false t
  | _ => signed false s
  end.

Definition digit_char (d : Z) : ascii := ascii_of_N (Z.to_N (48 + d)).

Fixpoint number_aux (fuel : nat) (n : Z) (acc : string) : string :=
  match fuel with
  | O => acc
  | S fuel' =>
      let acc' := String (digit_char (n mod 10)) acc in
      if n <? 10 then acc' else number_aux fuel' (n / 10) acc'
  end.

(** [QString::number(n)], base 10. *)
Definition number (n : Z) : string :=
  if n <? 0 then String "-"%char (number_aux 40 (- n) "")
  else number_aux 40 n "".

End Qt.

(** ** Data model *)

(** Modelled from the spec: composition.h is not among the sources.  The
    codes are the ones composition.cpp returns. *)
Inductive ErrorCode : Type :=
| NO_ERROR
| FILE_OPEN
| XML_PARSE
| CMD_ERR
| BAD_IDX.

#[global] Instance ErrorCode_eq_dec : EqDecision ErrorCode.
Proof. solve_decision. Defined.

(** Modelled from the spec: the two output channels of composition.h. *)
Inductive Channel : Type :=
| RIGHT
| LEFT.

(** Modelled from the spec: [struct Note] of composition.h, with the
    members composition.cpp uses. *)
Record Note : Type := mkNote {
  frequencies : list FP.float;
  length : FP.float
}.

(** Modelled from the spec: [struct Measure] of composition.h. *)
Record Measure : Type := mkMeasure {
  notes : list Note;
  xmlDurationSum : Z
}.

(** Modelled from the spec: [struct Part] of composition.h. *)
Record Part : Type := mkPart {
  measures : list Measure
}.

(** Modelled from the spec: the data members of [class Composition] that
    composition.cpp reads and writes, with the constructor's order.  The
    two stacks keep their top at the head of the list. *)
Record Composition : Type := mkComposition {
  parts : list Part;
  currDivisions : Z;
  bpm : Z;
  currPart : Z;
  octaveAdjust : FP.float;
  partIdxR : Z;
  partIdxL : Z;
  measStartIdx : Z;
  measEndIdx : Z;
  backups : list Z;
  prevParts : list Z
}.

(** [Measure()], [Part()] and the object [Composition::Composition] builds. *)
Definition emptyMeasure : Measure := mkMeasure [] 0.
Definition emptyPart : Part := mkPart [].

Definition newComposition : Composition :=
  mkComposition [] 1 100 0 FP.one 0 0 0 0 [] [].

Definition set_parts (ps : list Part) (c : Composition) : Composition :=
  mkComposition ps (currDivisions c) (bpm c) (currPart c) (octaveAdjust c)
    (partIdxR c) (partIdxL c) (measStartIdx c) (measEndIdx c)
    (backups c) (prevParts c).

Definition set_currDivisions (d : Z) (c : Composition) : Composition :=
  mkComposition (parts c) d (bpm c) (currPart c) (octaveAdjust c)
    (partIdxR c) (partIdxL c) (measStartIdx c) (measEndIdx c)
    (backups c) (prevParts c).

Definition set_bpm (b : Z) (c : Composition) : Composition :=
  mkComposition (parts c) (currDivisions c) b (currPart c) (octaveAdjust c)
    (partIdxR c) (partIdxL c) (measStartIdx c) (measEndIdx c)
    (backups c) (prevParts c).

Definition set_currPart (p : Z) (c : Composition) : Composition :=
  mkComposition (parts c) (currDivisions c) (bpm c) p (octaveAdjust c)
    (partIdxR c) (partIdxL c) (measStartIdx c) (measEndIdx c)
    (backups c) (prevParts c).

Definition set_partIdxR (i : Z) (c : Composition) : Composition :=
  mkComposition (parts c) (currDivisions c) (bpm c) (currPart c)
    (octaveAdjust c) i (partIdxL c) (measStartIdx c) (measEndIdx c)
    (backups c) (prevParts c).

Definition set_partIdxL (i : Z) (c : Composition) : Composition :=
  mkComposition (parts c) (currDivisions c) (bpm c) (currPart c)
    (octaveAdjust c) (partIdxR c) i (measStartIdx c) (measEndIdx c)
    (backups c) (prevParts c).

Definition set_measStartIdx (i : Z) (c : Composition) : Composition :=
  mkComposition (parts c) (currDivisions c) (bpm c) (currPart c)
    (octaveAdjust c) (partIdxR c) (partIdxL c) i (measEndIdx c)
    (backups c) (prevParts c).

Definition set_measEndIdx (i : Z) (c : Composition) : Composition :=
  mkComposition (parts c) (currDivisions c) (bpm c) (currPart c)
    (octaveAdjust c) (partIdxR c) (partIdxL c) (measStartIdx c) i
    (backups c) (prevParts c).

(** Both stacks and the cursor change together when a backup scope opens
    or closes. *)
Definition set_cursor (bs ps : list Z) (p : Z) (c : Composition)
  : Composition :=
  mkComposition (parts c) (currDivisions c) (bpm c) p (octaveAdjust c)
    (partIdxR c) (partIdxL c) (measStartIdx c) (measEndIdx c) bs ps.

Definition set_backups (bs : list Z) (c : Composition) : Composition :=
  set_cursor bs (prevParts c) (currPart c) c.

(** [v.size()] as the unsigned value the source compares indices with. *)
Definition size {A : Type} (l : list A) : Z := Z.of_nat (List.length l).

(** [v[i]] for an unsigned index [i]. *)
Definition at_index {A : Type} (l : list A) (i : Z) : result A :=
  of_option (l !! Z.to_nat i).

(** ** The XML reader *)

(** [QXmlStreamReader::TokenType]. *)
Inductive TokenType : Type :=
| NoToken
| Invalid
| StartDocument
| EndDocument
| StartElement
| EndElement
| Characters
| Comment
| DTD
| EntityReference
| ProcessingInstruction.

#[global] Instance TokenType_eq_dec : EqDecision TokenType.
Proof. solve_decision. Defined.

(** What the reader reports about the token it stands on: [tokenType()],
    [name()] and [text()]. *)
Record Token : Type := mkToken {
  tokenType : TokenType;
  name : string;
  text : string
}.

(** The tokenizer is outside the repository: the reader is the token it
    stands on and the tokens it has still to deliver.  Once they are used
    up [readNext()] reports [Invalid] for ever. *)
Record QXmlStreamReader : Type := mkReader {
  current : Token;
  pending : list Token
}.

Definition invalidToken : Token := mkToken Invalid "" "".

Definition readNext (xml : QXmlStreamReader) : QXmlStreamReader :=
  match pending xml with
  | [] => mkReader invalidToken []
  | t :: ts => mkReader t ts
  end.

Definition setDevice (tokens : list Token) : QXmlStreamReader :=
  mkReader (mkToken NoToken "" "") tokens.

(** [xml.tokenType() == ty && xml.name() == QLatin1String(n)]. *)
Definition at_element (ty : TokenType) (n : string) (xml : QXmlStreamReader)
  : bool :=
  bool_decide (tokenType (current xml) = ty) && String.eqb (name (current xml)) n.

Definition is_start (xml : QXmlStreamReader) : bool :=
  bool_decide (tokenType (current xml) = StartElement).

Definition named (n : string) (xml : QXmlStreamReader) : bool :=
  String.eqb (name (current xml)) n.

(** Fuel for a loop that reads tokens: one more than the tokens left. *)
Definition tokens_left (xml : QXmlStreamReader) : nat :=
  S (List.length (pending xml)).

(** ** The score builder *)

Section Builder.

(** [QStringRef::toUInt()] and [QStringRef::toInt()] of the Qt library;
    [Qt.toUInt] and [Qt.toInt] are the instances used on concrete
    documents. *)
Variable toUInt : string -> Z.
Variable toInt : string -> Z.

(** *** parseXmlPitch *)

Definition HALF_STEPS_PER_OCTAVE : Z := 12.
Definition twelth_root_of_two : FP.double :=
  FP.double_literal 1059463094359 1000000000000.
Definition C_0_FREQ : FP.double := FP.double_literal 1635 100.

(** The [if (step == 'C') ... else if ...] chain: the half steps the
    letter adds, [None] in the final [else]. *)
Definition step_offset (step : ascii) : option Z :=
  if Ascii.eqb step "C" then Some 0
  else if Ascii.eqb step "D" then Some 2
  else if Ascii.eqb step "E" then Some 4
  else if Ascii.eqb step "F" then Some 5
  else if Ascii.eqb step "G" then Some 7
  else if Ascii.eqb step "A" then Some 9
  else if Ascii.eqb step "B" then Some 11
  else None.

(** [for (cnt = 0; cnt < num_half_steps; cnt++) factor *= twelth_root_of_two]
    starting from [factor = 1]. *)
Definition half_step_factor (num_half_steps : Z) : FP.double :=
  Z.iter num_half_steps (fun factor => FP.muld factor twelth_root_of_two)
    (FP.double_of_Z 1).

(** The part of [parseXmlPitch] after its children are read. *)
Definition pitchFrequency (step : ascii) (alter octave : Z) (freq : FP.float)
  : result (ErrorCode * FP.float) :=
  octs ← check_int (octave * HALF_STEPS_PER_OCTAVE);
  num_half_steps ← check_int (octs + alter);
  match step_offset step with
  | Some off =>
      num_half_steps ← check_int (num_half_steps + off);
      let factor := half_step_factor num_half_steps in
      Ok (NO_ERROR, FP.float_of_double (FP.muld C_0_FREQ factor))
  | None => Ok (XML_PARSE, freq)
  end.

(** [xml.text()[0]]. *)
Definition first_char (s : string) : result ascii :=
  match s with
  | String a _ => Ok a
  | EmptyString => Undef
  end.

(** The [while(1)] of [parseXmlPitch]. *)
Fixpoint pitch_children (fuel : nat) (xml : QXmlStreamReader)
    (step : ascii) (alter octave : Z)
  : result (QXmlStreamReader * (ascii * Z * Z)) :=
  match fuel with
  | O => Loops
  | S fuel =>
      let xml := readNext xml in
      if at_element EndElement "pitch" xml then Ok (xml, (step, alter, octave))
      else if is_start xml then
        if named "step" xml then
          let xml := readNext xml in
          step ← first_char (text (current xml));
          pitch_children fuel xml step alter octave
        else if named "alter" xml then
          let xml := readNext xml in
          pitch_children fuel xml step (toInt (text (current xml))) octave
        else if named "octave" xml then
          let xml := readNext xml in
          pitch_children fuel xml step alter (toInt (text (current xml)))
        else pitch_children fuel xml step alter octave
      else pitch_children fuel xml step alter octave
  end.

Definition parseXmlPitch (xml : QXmlStreamReader) (freq : FP.float)
  : result (ErrorCode * QXmlStreamReader * FP.float) :=
  if negb (named "pitch" xml) || negb (is_start xml) then
    Ok (XML_PARSE, xml, freq)
  else
    '(xml, (step, alter, octave)) ←
      pitch_children (tokens_left xml) xml "000"%char 0 0;
    '(code, freq) ← pitchFrequency step alter octave freq;
    Ok (code, xml, freq).

(** *** parseXmlBackup *)

(** The [while(1)] of [parseXmlBackup]. *)
Fixpoint backup_children (fuel : nat) (xml : QXmlStreamReader)
    (duration : Z) : result (QXmlStreamReader * Z) :=
  match fuel with
  | O => Loops
  | S fuel =>
      let xml := readNext xml in
      if at_element EndElement "backup" xml then Ok (xml, duration)
      else if is_start xml then
        if named "duration" xml then
          let xml := readNext xml in
          backup_children fuel xml (toUInt (text (current xml)))
        else backup_children fuel xml duration
      else backup_children fuel xml duration
  end.

(** [backups.push(duration); prevParts.push(currPart); currPart++]. *)
Definition openBackup (duration : Z) (c : Composition) : Composition :=
  set_cursor (duration :: backups c) (currPart c :: prevParts c)
    (wrap32 (currPart c + 1)) c.

Definition parseXmlBackup (xml : QXmlStreamReader) (c : Composition)
  : result (ErrorCode * QXmlStreamReader * Composition) :=
  if negb (named "backup" xml) || negb (is_start xml) then
    Ok (XML_PARSE, xml, c)
  else
    '(xml, duration) ← backup_children (tokens_left xml) xml 0;
    if duration =? 0 then Ok (XML_PARSE, xml, c)
    else Ok (NO_ERROR, xml, openBackup duration c).

(** *** parseXmlNote *)

(** [backups.pop(); currPart = prevParts.top(); prevParts.pop()]. *)
Definition closeBackup (c : Composition) : result Composition :=
  match backups c, prevParts c with
  | _ :: bs, p :: ps => Ok (set_cursor bs ps p c)
  | _, _ => Undef
  end.

(** The check on entry of [parseXmlNote]: a backup scope whose counter
    has reached 0 is closed. *)
Definition closeFinishedBackup (c : Composition) : result Composition :=
  match backups c with
  | top :: _ => if top =? 0 then closeBackup c else Ok c
  | [] => Ok c
  end.

(** What the children of a note element set: [frequency], [length],
    [raw_xml_duration] and [isChord]. *)
Record NoteFields : Type := mkNoteFields {
  nf_frequency : FP.float;
  nf_length : FP.float;
  nf_raw_xml_duration : Z;
  nf_isChord : bool
}.

Definition noNoteFields : NoteFields :=
  mkNoteFields FP.zero FP.zero 0 false.

(** The [while(1)] of [parseXmlNote]; [divisions] is [currDivisions]. *)
Fixpoint note_children (fuel : nat) (divisions : Z)
    (xml : QXmlStreamReader) (nf : NoteFields)
  : result (ErrorCode * QXmlStreamReader * NoteFields) :=
  match fuel with
  | O => Loops
  | S fuel =>
      let xml := readNext xml in
      if at_element EndElement "note" xml then Ok (NO_ERROR, xml, nf)
      else if is_start xml then
        if named "pitch" xml then
          '(code, xml, frequency) ← parseXmlPitch xml (nf_frequency nf);
          if bool_decide (code = NO_ERROR) then
            note_children fuel divisions xml
              (mkNoteFields frequency (nf_length nf)
                 (nf_raw_xml_duration nf) (nf_isChord nf))
          else Ok (code, xml, nf)
        else if named "duration" xml then
          let xml := readNext xml in
          let raw := toUInt (text (current xml)) in
          note_children fuel divisions xml
            (mkNoteFields (nf_frequency nf)
               (FP.divf (FP.float_of_Z raw) (FP.float_of_Z divisions))
               raw (nf_isChord nf))
        else if named "chord" xml then
          note_children fuel divisions xml
            (mkNoteFields (nf_frequency nf) (nf_length nf)
               (nf_raw_xml_duration nf) true)
        else note_children fuel divisions xml nf
      else note_children fuel divisions xml nf
  end.

(** [v.back() = x] on a vector. *)
Definition set_back {A : Type} (x : A) (l : list A) : list A :=
  <[Nat.pred (List.length l) := x]> l.

(** The part of [parseXmlNote] after the children are read: find (or
    create) the current part and its last measure, then add the chord
    member or the new note and charge the open backup scope. *)
Definition storeNote (nf : NoteFields) (c : Composition)
  : result (ErrorCode * Composition) :=
  let ps := if size (parts c) <=? currPart c then parts c ++ [emptyPart]
            else parts c in
  part ← at_index ps (currPart c);
  let ms := if size (measures part) <? 1 then measures part ++ [emptyMeasure]
            else measures part in
  meas ← of_option (last ms);
  let put (m : Measure) : Composition :=
    set_parts (<[Z.to_nat (currPart c) := mkPart (set_back m ms)]> ps) c in
  if nf_isChord nf then
    if size (notes meas) <? 1 then Ok (XML_PARSE, put meas)
    else
      note ← of_option (last (notes meas));
      (* the two casts of the length warning *)
      _ ← FP.to_int (length note);
      _ ← FP.to_int (nf_length nf);
      let note :=
        mkNote (frequencies note ++ [nf_frequency nf]) (length note) in
      Ok (NO_ERROR,
          put (mkMeasure (set_back note (notes meas)) (xmlDurationSum meas)))
  else
    let note := mkNote [nf_frequency nf] (nf_length nf) in
    let c :=
      put (mkMeasure (notes meas ++ [note])
             (wrap32 (xmlDurationSum meas + nf_raw_xml_duration nf))) in
    match backups c with
    | [] => Ok (NO_ERROR, c)
    | backup_dur :: rest =>
        if backup_dur <? nf_raw_xml_duration nf then Ok (XML_PARSE, c)
        else
          Ok (NO_ERROR,
              set_backups
                (wrap32 (backup_dur - nf_raw_xml_duration nf) :: rest) c)
    end.

Definition parseXmlNote (xml : QXmlStreamReader) (c : Composition)
  : result (ErrorCode * QXmlStreamReader * Composition) :=
  if negb (named "note" xml) || negb (is_start xml) then
    Ok (XML_PARSE, xml, c)
  else
    c ← closeFinishedBackup c;
    '(code, xml, nf) ←
      note_children (tokens_left xml) (currDivisions c) xml noNoteFields;
    if bool_decide (code = NO_ERROR) then
      '(code, c) ← storeNote nf c;
      Ok (code, xml, c)
    else Ok (code, xml, c).

(** *** parse *)

(** [while (backups.size()) { if (backups.top() != 0) return XML_PARSE;
    backups.pop(); currPart = prevParts.top(); prevParts.pop(); }],
    by recursion on the backup stack [bs] of [c]. *)
Fixpoint drain (bs : list Z) (c : Composition)
  : result (ErrorCode * Composition) :=
  match bs with
  | [] => Ok (NO_ERROR, c)
  | top :: bs =>
      if top =? 0 then c ← closeBackup c; drain bs c
      else Ok (XML_PARSE, c)
  end.

Definition drainBackups (c : Composition)
  : result (ErrorCode * Composition) :=
  drain (backups c) c.

(** [for (parts_idx = currPart; parts_idx < parts.size(); parts_idx++)
    parts[parts_idx].measures.push_back(Measure())]. *)
Definition addMeasures (c : Composition) : Composition :=
  set_parts
    (imap (fun i part =>
             if currPart c <=? Z.of_nat i
             then mkPart (measures part ++ [emptyMeasure]) else part)
       (parts c)) c.

(** One turn of the [while (xml.readNext() != EndDocument)] of [parse]:
    either the loop goes on from a reader and an object, or [parse]
    returns. *)
Inductive Turn : Type :=
| Continue (xml : QXmlStreamReader) (c : Composition)
| Return (code : ErrorCode) (c : Composition).

Definition continue_if_ok (code : ErrorCode) (xml : QXmlStreamReader)
    (c : Composition) : Turn :=
  if bool_decide (code = NO_ERROR) then Continue xml c else Return code c.

Definition parse_turn (xml : QXmlStreamReader) (c : Composition)
  : result Turn :=
  let xml := readNext xml in
  if bool_decide (tokenType (current xml) = EndDocument)
  then Ok (Return NO_ERROR c)
  else if is_start xml then
    if named "note" xml then
      '(code, xml, c) ← parseXmlNote xml c;
      Ok (continue_if_ok code xml c)
    else if named "backup" xml then
      '(code, xml, c) ← parseXmlBackup xml c;
      Ok (continue_if_ok code xml c)
    else if named "measure" xml then
      '(code, c) ← drainBackups c;
      if bool_decide (code = NO_ERROR) then Ok (Continue xml (addMeasures c))
      else Ok (Return code c)
    else if named "per-minute" xml then
      let xml := readNext xml in
      Ok (Continue xml (set_bpm (toUInt (text (current xml))) c))
    else if named "divisions" xml then
      let xml := readNext xml in
      Ok (Continue xml (set_currDivisions (toUInt (text (current xml))) c))
    else Ok (Continue xml c)
  else if bool_decide (tokenType (current xml) = EndElement) then
    if named "part" xml then
      '(code, c) ← drainBackups c;
      if bool_decide (code = NO_ERROR)
      then Ok (Continue xml (set_currPart (wrap32 (currPart c + 1)) c))
      else Ok (Return code c)
    else Ok (Continue xml c)
  else Ok (Continue xml c).

Fixpoint parse_loop (fuel : nat) (xml : QXmlStreamReader) (c : Composition)
  : result (ErrorCode * Composition) :=
  match fuel with
  | O => Loops
  | S fuel =>
      turn ← parse_turn xml c;
      match turn with
      | Continue xml c => parse_loop fuel xml c
      | Return code c => Ok (code, c)
      end
  end.

(** The objects at the head of each turn of the loop, and the one
    [parse] returns with. *)
Fixpoint parse_states (fuel : nat) (xml : QXmlStreamReader)
    (c : Composition) : list Composition :=
  match fuel with
  | O => [c]
  | S fuel =>
      c :: match parse_turn xml c with
           | Ok (Continue xml c) => parse_states fuel xml c
           | Ok (Return _ c) => [c]
           | _ => []
           end
  end.

(** [Composition::parse]; [file] is [None] when the file cannot be
    opened, otherwise the tokens the reader delivers for it. *)
Definition parse (file : option (list Token)) (c : Composition)
  : result (ErrorCode * Composition) :=
  let c := set_currPart 0 (set_parts [] c) in
  match file with
  | None => Ok (FILE_OPEN, c)
  | Some tokens =>
      let xml := setDevice tokens in
      parse_loop (tokens_left xml) xml c
  end.

(** [parse] as the list of objects its loop passes through. *)
Definition parse_pass (tokens : list Token) (c : Composition)
  : list Composition :=
  let xml := setDevice tokens in
  parse_states (tokens_left xml) xml (set_currPart 0 (set_parts [] c)).

Definition turn_object (t : Turn) : Composition :=
  match t with
  | Continue _ c => c
  | Return _ c => c
  end.

End Builder.

(** ** Channel and range configuration *)

Definition setPartIdx (chan : Channel) (partIdx : Z) (c : Composition)
  : ErrorCode * Composition :=
  match chan with
  | RIGHT =>
      if size (parts c) <=? partIdx then (BAD_IDX, c)
      else (NO_ERROR, set_partIdxR partIdx c)
  | LEFT =>
      if size (parts c) <=? partIdx then (BAD_IDX, c)
      else (NO_ERROR, set_partIdxL partIdx c)
  end.

Definition getPartIdx (chan : Channel) (c : Composition) : Z :=
  match chan with
  | RIGHT => partIdxR c
  | LEFT => partIdxL c
  end.

Definition getNumMeasures (c : Composition) : Z :=
  match parts c with
  | [] => 0
  | part :: _ => size (measures part)
  end.

Definition setMeasStartIdx (measStartIdx' : Z) (c : Composition)
  : ErrorCode * Composition :=
  match parts c with
  | [] => (BAD_IDX, c)
  | part :: _ =>
      if size (measures part) <=? measStartIdx' then (BAD_IDX, c)
      else (NO_ERROR, set_measStartIdx measStartIdx' c)
  end.

Definition getMeasStartIdx (c : Composition) : Z := measStartIdx c.

(** The range test of [setMeasEndIdx] names [measStartIdx]: inside this
    function that is the data member, not the argument [measEndIdx]. *)
Definition setMeasEndIdx (measEndIdx' : Z) (c : Composition)
  : ErrorCode * Composition :=
  match parts c with
  | [] => (BAD_IDX, c)
  | part :: _ =>
      if size (measures part) <=? measStartIdx c then (BAD_IDX, c)
      else (NO_ERROR, set_measEndIdx measEndIdx' c)
  end.

Definition getMeasEndIdx (c : Composition) : Z := measEndIdx c.

(** ** Chord query *)

(** The inner [for] of [getNumChords] over the notes of one measure.
    [size()] of a vector is an [int], so the cast to [uint32_t] keeps it. *)
Fixpoint max_chord_notes (ns : list Note) (max_chord_size : Z) : Z :=
  match ns with
  | [] => max_chord_size
  | note :: ns =>
      max_chord_notes ns
        (if max_chord_size <? size (frequencies note)
         then size (frequencies note) else max_chord_size)
  end.

(** The [for (meas_idx = measStartIdx; meas_idx < measEndIdx; meas_idx++)]
    of [getNumChords], with [n] iterations left. *)
Fixpoint numChords_loop (n : nat) (meas_idx : Z) (part : Part)
    (max_chord_size : Z) : result Z :=
  match n with
  | O => Ok max_chord_size
  | S n =>
      meas ← at_index (measures part) meas_idx;
      numChords_loop n (meas_idx + 1) part
        (max_chord_notes (notes meas) max_chord_size)
  end.

(** [Composition::getNumChords]. *)
Definition getNumChords (partIdx measStartIdx' measEndIdx' : Z)
    (c : Composition) : result Z :=
  if size (parts c) <=? partIdx then Ok 0
  else
    part ← at_index (parts c) partIdx;
    if (size (measures part) <=? measStartIdx')
       || (size (measures part) <=? measEndIdx')
    then Ok 0
    else
      numChords_loop (Z.to_nat (measEndIdx' - measStartIdx')) measStartIdx'
        part 0.

(** ** Capacity estimate *)

Definition NUM_JINGLE_HDR_BYTES : Z := 4.
Definition BYTES_PER_NOTE : Z := 6.

(** The [for (meas_idx = meas_start_idx; meas_idx < meas_end_idx; meas_idx++)]
    of [getMemUsage], with [n] iterations left. *)
Fixpoint memUsage_loop (n : nat) (meas_idx : Z) (part_r part_l : Part)
    (byte_cnt : Z) : result Z :=
  match n with
  | O => Ok byte_cnt
  | S n =>
      meas_r ← at_index (measures part_r) meas_idx;
      let byte_cnt := wrap32 (byte_cnt + size (notes meas_r) * BYTES_PER_NOTE) in
      meas_l ← at_index (measures part_l) meas_idx;
      let byte_cnt := wrap32 (byte_cnt + size (notes meas_l) * BYTES_PER_NOTE) in
      memUsage_loop n (meas_idx + 1) part_r part_l byte_cnt
  end.

(** The value [getMemUsage] accumulates in [byte_cnt]. *)
Definition memUsage_byte_cnt (c : Composition) : result Z :=
  let byte_cnt := NUM_JINGLE_HDR_BYTES in
  let part_idx_r := getPartIdx RIGHT c in
  let part_idx_l := getPartIdx LEFT c in
  let meas_start_idx := getMeasStartIdx c in
  let meas_end_idx := getMeasEndIdx c in
  part_r ← at_index (parts c) part_idx_r;
  part_l ← at_index (parts c) part_idx_l;
  memUsage_loop (Z.to_nat (meas_end_idx - meas_start_idx)) meas_start_idx
    part_r part_l byte_cnt.

(** [Composition::getMemUsage]: the function ends in [return 0]. *)
Definition getMemUsage (c : Composition) : result Z :=
  _ ← memUsage_byte_cnt c;
  Ok 0.

(** The estimate as the specification words it: the header bytes plus,
    for both channels, six bytes for every note of the channel's part in
    the measures [measStartIdx, measEndIdx). *)
Definition notesInRange (c : Composition) (chan : Channel) : option Z :=
  part ← parts c !! Z.to_nat (getPartIdx chan c);
  Some (foldr (fun meas n => size (notes meas) + n) 0
          (take (Z.to_nat (measEndIdx c - measStartIdx c))
             (drop (Z.to_nat (measStartIdx c)) (measures part)))).

Definition specMemUsage (c : Composition) : option Z :=
  r ← notesInRange c RIGHT;
  l ← notesInRange c LEFT;
  Some (4 + (r * 6 + l * 6)).

(** ** Downloader *)

(** [QString] concatenation. *)
Infix "+:+" := String.append (at level 60, right associativity).

Definition LF : string := String "010"%char "".
Definition CR : string := String "013"%char "".

(** Modelled from the spec: scserial.h is not among the sources;
    [download] only tells [SCSerial::NO_ERROR] from every other code. *)
Inductive SerialErrorCode : Type :=
| SERIAL_NO_ERROR
| SERIAL_ERROR (code : Z).

#[global] Instance SerialErrorCode_eq_dec : EqDecision SerialErrorCode.
Proof. solve_decision. Defined.

(** [Composition::noteToCmd]; it reads [octaveAdjust] and [bpm]. *)
Definition noteToCmd (c : Composition) (note : Note) (chan : Channel)
    (jingleIdx noteIdx chordIdx : Z) : result string :=
  let chan_str := match chan with LEFT => "left" | RIGHT => "right" end in
  let duty_cydle := 128 in
  frequency ←
    (if chordIdx <? size (frequencies note) then
       f ← at_index (frequencies note) chordIdx;
       FP.to_uint32 (FP.mulf f (octaveAdjust c))
     else Ok 0);
  duration_ms ←
    FP.to_uint32
      (FP.divf (FP.mulf (FP.mulf (length note) (FP.float_of_Z 60))
                  (FP.float_of_Z 1000))
         (FP.float_of_Z (bpm c)));
  Ok ("jingle note " +:+ Qt.number jingleIdx +:+ " " +:+
      chan_str +:+ " " +:+
      Qt.number noteIdx +:+ " " +:+
      Qt.number duty_cydle +:+ " " +:+
      Qt.number frequency +:+ " " +:+
      Qt.number duration_ms +:+ LF).

Section Download.

(** Modelled from the spec: [SCSerial::send(cmd, resp)] is not among the
    sources.  It is a blocking exchange on a transport in state
    [Serial] that reports an error code. *)
Variable Serial : Type.
Variable send : Serial -> string -> string -> SerialErrorCode * Serial.

(** The transport together with the commands handed to it so far. *)
Definition Link : Type := Serial * list string.

(** [serial.send(cmd, resp)]. *)
Definition serial_send (l : Link) (cmd resp : string)
  : SerialErrorCode * Link :=
  let '(code, s) := send (fst l) cmd resp in
  (code, (s, snd l ++ [cmd])).

(** [num_notes]: the first loop of [download] over the measures of the
    part. *)
Definition count_notes (part : Part) : Z :=
  fold_left (fun num_notes meas => num_notes + size (notes meas))
    (measures part) 0.

(** The inner [for] of [download] over the notes of one measure, from
    index [notes_idx] on. *)
Fixpoint download_notes (c : Composition) (jingleIdx : Z)
    (ns : list Note) (note_cnt : Z) (l : Link)
  : result (ErrorCode * Z * Link) :=
  match ns with
  | [] => Ok (NO_ERROR, note_cnt, l)
  | note :: ns =>
      cmd ← noteToCmd c note RIGHT jingleIdx note_cnt 0;
      let resp := cmd +:+ CR +:+ "Note updated successfully." +:+ LF +:+ CR in
      let '(serial_err_code, l) := serial_send l cmd resp in
      if bool_decide (serial_err_code = SERIAL_NO_ERROR) then
        cmd ← noteToCmd c note LEFT jingleIdx note_cnt 0;
        let resp :=
          cmd +:+ CR +:+ "Note updated successfully." +:+ LF +:+ CR in
        let '(serial_err_code, l) := serial_send l cmd resp in
        if bool_decide (serial_err_code = SERIAL_NO_ERROR) then
          download_notes c jingleIdx ns (wrap32 (note_cnt + 1)) l
        else Ok (CMD_ERR, note_cnt, l)
      else Ok (CMD_ERR, note_cnt, l)
  end.

(** The outer [for] of [download] over the measures of the part. *)
Fixpoint download_measures (c : Composition) (jingleIdx : Z)
    (ms : list Measure) (note_cnt : Z) (l : Link)
  : result (ErrorCode * Z * Link) :=
  match ms with
  | [] => Ok (NO_ERROR, note_cnt, l)
  | meas :: ms =>
      '(code, note_cnt, l) ←
        download_notes c jingleIdx (notes meas) note_cnt l;
      if bool_decide (code = NO_ERROR)
      then download_measures c jingleIdx ms note_cnt l
      else Ok (code, note_cnt, l)
  end.

(** [Composition::download]. *)
Definition download (c : Composition) (l : Link) (jingleIdx : Z)
  : result (ErrorCode * Link) :=
  let parts_idx := 0 in
  if size (parts c) <=? parts_idx then Ok (NO_ERROR, l)
  else
    part ← at_index (parts c) parts_idx;
    let num_notes := count_notes part in
    let cmd :=
      "jingle add " +:+ (Qt.number num_notes +:+ " ") +:+
      (Qt.number num_notes +:+ LF) in
    let resp := cmd +:+ CR +:+ "Jingle added successfully." +:+ LF +:+ CR in
    let '(serial_err_code, l) := serial_send l cmd resp in
    if bool_decide (serial_err_code = SERIAL_NO_ERROR) then
      '(code, _, l) ← download_measures c jingleIdx (measures part) 0 l;
      Ok (code, l)
    else Ok (CMD_ERR, l).

End Download.

(** ** The line editor of the development console (cmdline.c) *)

Module CmdLine.

(** The [for (; rd_idx < buff_cnt; rd_idx++)] of [handleSerial], entered
    after [bytes_rcvd] new bytes were put into [buff] from index
    [buff_cnt] on and [buff_cnt += bytes_rcvd].  [buff] is the static
    byte buffer, [fuel] bounds the iterations (the loop makes at most
    [bytes_rcvd] of them).  The result is the buffer and [buff_cnt] the
    loop ends with. *)
Fixpoint editLoop (fuel : nat) (buff : list Z) (rd_idx wr_idx buff_cnt : Z)
  : result (list Z * Z) :=
  match fuel with
  | O => if rd_idx <? buff_cnt then Loops else Ok (buff, buff_cnt)
  | S fuel =>
      if rd_idx <? buff_cnt then
        ch ← at_index buff rd_idx;
        if (ch =? 127) || (ch =? 8) then
          let wr_idx := if wr_idx =? 0 then wr_idx else wr_idx - 1 in
          let buff_cnt := if 1 <? buff_cnt then buff_cnt - 2 else 0 in
          editLoop fuel buff (rd_idx + 1) wr_idx buff_cnt
        else
          _ ← at_index buff wr_idx;
          editLoop fuel (<[Z.to_nat wr_idx := ch]> buff) (rd_idx + 1)
            (wr_idx + 1) buff_cnt
      else Ok (buff, buff_cnt)
  end.

(** The part of [handleSerial] after a read that brought the bytes
    [buff[buff_cnt .. buff_cnt + bytes_rcvd)]: the new count, the loop,
    and the line [sendUsbSerialData(buff, buff_cnt)] echoes. *)
Definition editReceived (buff : list Z) (buff_cnt bytes_rcvd : Z)
  : result (list Z * Z * list Z) :=
  let rd_idx := buff_cnt in
  let wr_idx := buff_cnt in
  let buff_cnt := buff_cnt + bytes_rcvd in
  '(buff, buff_cnt) ← editLoop (Z.to_nat bytes_rcvd) buff rd_idx wr_idx buff_cnt;
  Ok (buff, buff_cnt, take (Z.to_nat buff_cnt) buff).

(** Delete and backspace, the two bytes the loop treats as erasing. *)
Definition erases (ch : Z) : bool := (ch =? 127) || (ch =? 8).

End CmdLine.

(** ** Notions the properties are stated with *)

(** The commands a download hands to the transport when nothing stops it,
    each one as [noteToCmd] yields it: the right channel's command of a
    note, then the left channel's, note after note. *)
Fixpoint note_cmds (c : Composition) (jingleIdx : Z) (ns : list Note)
    (note_cnt : Z) : list (result string) :=
  match ns with
  | [] => []
  | note :: ns =>
      noteToCmd c note RIGHT jingleIdx note_cnt 0 ::
      noteToCmd c note LEFT jingleIdx note_cnt 0 ::
      note_cmds c jingleIdx ns (wrap32 (note_cnt + 1))
  end.

Definition next_cnt (note_cnt : Z) (ns : list Note) : Z :=
  fold_left (fun k _ => wrap32 (k + 1)) ns note_cnt.

Fixpoint measure_cmds (c : Composition) (jingleIdx : Z) (ms : list Measure)
    (note_cnt : Z) : list (result string) :=
  match ms with
  | [] => []
  | meas :: ms =>
      note_cmds c jingleIdx (notes meas) note_cnt ++
      measure_cmds c jingleIdx ms (next_cnt note_cnt (notes meas))
  end.

Definition allocate_cmd (num_notes : Z) : string :=
  "jingle add " +:+ (Qt.number num_notes +:+ " ") +:+
  (Qt.number num_notes +:+ LF).

Definition download_cmds (c : Composition) (jingleIdx : Z)
  : list (result string) :=
  match parts c with
  | [] => []
  | part :: _ =>
      Ok (allocate_cmd (fold_left (fun n meas => n + size (notes meas))
                          (measures part) 0)) ::
      measure_cmds c jingleIdx (measures part) 0
  end.

(** The two stacks have the same depth. *)
Definition stacks_balanced (c : Composition) : Prop :=
  List.length (backups c) = List.length (prevParts c).

(** The notes of the measure a note is stored in: the last measure of the
    part under the cursor, no notes when there is no such part or measure
    yet. *)
Definition currentNotes (c : Composition) : list Note :=
  match parts c !! Z.to_nat (currPart c) with
  | Some part =>
      match last (measures part) with
      | Some meas => notes meas
      | None => []
      end
  | None => []
  end.

(** What the chord branch leaves behind: the last note of the current
    measure has one more frequency and its own length, the measure has as
    many notes as before, and nothing else changed. *)
Definition chord_joined (nf : NoteFields) (ns : list Note) (n : Note)
    (c1 c' : Composition) : Prop :=
  currentNotes c'
  = ns ++ [mkNote (frequencies n ++ [nf_frequency nf]) (length n)] /\
  size (currentNotes c') = size (currentNotes c1) /\
  backups c' = backups c1 /\ prevParts c' = prevParts c1 /\
  currPart c' = currPart c1 /\
  exists part ms meas,
    parts c1 !! Z.to_nat (currPart c1) = Some part /\
    measures part = ms ++ [meas] /\
    notes meas = ns ++ [n] /\
    parts c'
    = <[Z.to_nat (currPart c1) :=
          mkPart (ms ++ [mkMeasure
            (ns ++ [mkNote (frequencies n ++ [nf_frequency nf]) (length n)])
            (xmlDurationSum meas)])]> (parts c1).

(** The reader once its tokens are used up. *)
Definition dry : QXmlStreamReader := mkReader invalidToken [].

(** The measures [start, end) of a part, and the notes in them. *)
Definition measures_in (part : Part) (start end_ : Z) : list Measure :=
  take (Z.to_nat (end_ - start)) (drop (Z.to_nat start) (measures part)).

Definition notes_in (ms : list Measure) : list Note :=
  concat (notes <$> ms).

(** The largest number of frequencies among some notes, 0 for none. *)
Definition largest_chord (ns : list Note) : Z :=
  foldr (fun note m => Z.max (size (frequencies note)) m) 0 ns.

(** Note elements handled one after the other as [parseXmlNote] handles
    them once their children are read: the check on entry, then
    [storeNote]; up to the first that is refused. *)
Fixpoint storeNotes (nfs : list NoteFields) (c : Composition)
  : result (ErrorCode * Composition) :=
  match nfs with
  | [] => Ok (NO_ERROR, c)
  | nf :: nfs =>
      c ← closeFinishedBackup c;
      '(code, c) ← storeNote nf c;
      if bool_decide (code = NO_ERROR) then storeNotes nfs c
      else Ok (code, c)
  end.

(** A note element without the chord marker and with a raw duration
    above 0. *)
Definition plain_note (nf : NoteFields) : Prop :=
  nf_isChord nf = false /\ 0 < nf_raw_xml_duration nf.

Definition raw_sum (nfs : list NoteFields) : Z :=
  foldr (fun nf n => nf_raw_xml_duration nf + n) 0 nfs.

(** A part with at least one measure all of whose notes hold at least one
    frequency. *)
Definition measure_sound (meas : Measure) : Prop :=
  Forall (fun note => frequencies note <> []) (notes meas).

Definition part_sound (part : Part) : Prop :=
  measures part <> [] /\ Forall measure_sound (measures part).

(** The settings [parse] has no business with. *)
Definition same_configuration (c c' : Composition) : Prop :=
  partIdxR c' = partIdxR c /\ partIdxL c' = partIdxL c /\
  measStartIdx c' = measStartIdx c /\ measEndIdx c' = measEndIdx c /\
  octaveAdjust c' = octaveAdjust c.

(** Both configured parts exist and, when the configured range is not
    empty, its end is at most the number of measures of either part. *)
Definition memUsage_in_bounds (c : Composition) : Prop :=
  exists part_r part_l,
    parts c !! Z.to_nat (partIdxR c) = Some part_r /\
    parts c !! Z.to_nat (partIdxL c) = Some part_l /\
    (measStartIdx c < measEndIdx c ->
     measEndIdx c <= size (measures part_r) /\
     measEndIdx c <= size (measures part_l)).

Definition other_channel (chan : Channel) : Channel :=
  match chan with
  | RIGHT => LEFT
  | LEFT => RIGHT
  end.

(** The start tag of a pitch element. *)
Definition pitch_start (t : Token) : bool :=
  bool_decide (tokenType t = StartElement) && String.eqb (name t) "pitch".

(** The codes a parse pass can end with. *)
Definition parse_code (code : ErrorCode) : Prop :=
  code = NO_ERROR \/ code = XML_PARSE.

(** A token the loop of [parse] passes over without doing anything. *)
Definition passed_over (t : Token) : bool :=
  match tokenType t with
  | EndDocument => false
  | StartElement =>
      negb (String.eqb (name t) "note" || String.eqb (name t) "backup"
            || String.eqb (name t) "measure"
            || String.eqb (name t) "per-minute"
            || String.eqb (name t) "divisions")
  | EndElement => negb (String.eqb (name t) "part")
  | _ => true
  end.

(** ** Concrete documents and compositions *)

Module Examples.

Definition open_tag (n : string) : Token := mkToken StartElement n "".
Definition close_tag (n : string) : Token := mkToken EndElement n "".
Definition chars (t : string) : Token := mkToken Characters "" t.
Definition end_document : Token := mkToken EndDocument "" "".

Definition element (n t : string) : list Token :=
  [open_tag n; chars t; close_tag n].

(** [<pitch><step>s</step><alter>a</alter><octave>o</octave></pitch>] *)
Definition pitch_element (s a o : string) : list Token :=
  [open_tag "pitch"] ++ element "step" s ++ element "alter" a ++
  element "octave" o ++ [close_tag "pitch"].

(** [<note>] with a pitch and a duration, after its start tag. *)
Definition note_body (s a o d : string) : list Token :=
  pitch_element s a o ++ element "duration" d ++ [close_tag "note"].

(** [<backup><duration>d</duration></backup>], after its start tag. *)
Definition backup_body (d : string) : list Token :=
  element "duration" d ++ [close_tag "backup"].

(** A 440 Hz quarter note. *)
Definition a4 : Note :=
  mkNote [S754_finite false 14417920 (-15)] (FP.float_of_Z 1).

(** One part of two measures with one note each; the configured range
    is the first measure only. *)
Definition two_measures : Composition :=
  mkComposition [mkPart [mkMeasure [a4] 4; mkMeasure [a4] 4]]
    4 100 1 FP.one 0 0 0 1 [] [].

(** One part with a single measure. *)
Definition one_measure : Composition :=
  mkComposition [mkPart [mkMeasure [a4] 4]] 4 100 1 FP.one 0 0 0 0 [] [].

(** A transport that accepts every command. *)
Definition accept (s : unit) (cmd resp : string) : SerialErrorCode * unit :=
  (SERIAL_NO_ERROR, tt).

(** A transport that accepts [s] commands and then fails. *)
Definition accept_first (s : nat) (cmd resp : string)
  : SerialErrorCode * nat :=
  match s with
  | O => (SERIAL_ERROR 1, O)
  | S n => (SERIAL_NO_ERROR, n)
  end.

End Examples.

Module Documents.
Import Examples.

(** One part, one measure, two voices: a whole note, a backup over its
    duration, and a second whole note for the next part. *)
Definition two_voices : list Token :=
  [open_tag "part"; open_tag "measure"] ++ element "divisions" "1" ++
  [open_tag "note"] ++ note_body "C" "0" "4" "4" ++
  [open_tag "backup"] ++ backup_body "4" ++
  [open_tag "note"] ++ note_body "E" "0" "4" "4" ++
  [close_tag "measure"; close_tag "part"; end_document].

(** A backup that no note follows, then the end of the document. *)
Definition dangling_backup : list Token :=
  [open_tag "backup"] ++ backup_body "4" ++ [end_document].

(** The same backup inside a part: the end of the part comes before the
    end of the document. *)
Definition dangling_backup_in_part : list Token :=
  [open_tag "part"; open_tag "backup"] ++ backup_body "4" ++
  [close_tag "part"; end_document].

End Documents.

Module ChordExample.
Import Examples.

(** Inside the first measure of the first part, after one note. *)
Definition after_a4 : Composition :=
  mkComposition [mkPart [mkMeasure [a4] 4]] 4 100 0 FP.one 0 0 0 0 [] [].

(** [<note><chord/>] with pitch E4 and duration 8, on its start tag. *)
Definition chord_note : QXmlStreamReader :=
  mkReader (open_tag "note")
    ([open_tag "chord"; close_tag "chord"] ++ note_body "E" "0" "4" "8").

(** E4 as the resolver computes it, and the length 8 / 4. *)
Definition chord_fields : NoteFields :=
  mkNoteFields (S754_finite false 10800180 (-15))
    (S754_finite false 8388608 (-22)) 8 true.

End ChordExample.

Module BackupExample.
Import Examples.

(** Second voice of the first measure: a backup of 4 is open. *)
Definition in_backup : Composition :=
  mkComposition [mkPart [mkMeasure [a4] 4]] 4 100 1 FP.one 0 0 0 0 [4] [0].

(** [<note>] with pitch E4 and duration 3, on its start tag. *)
Definition short_note : QXmlStreamReader :=
  mkReader (open_tag "note") (note_body "E" "0" "4" "3").

(** E4 and the length 3 / 4. *)
Definition short_fields : NoteFields :=
  mkNoteFields (S754_finite false 10800180 (-15))
    (S754_finite false 12582912 (-24)) 3 false.

End BackupExample.

Module Timelines.

(** What [parse] builds from [Documents.two_voices]: C4 in the first
    part, E4 in the second, both of length 4 / 1. *)
Definition two_voices : Composition :=
  mkComposition
    [mkPart [mkMeasure
       [mkNote [S754_finite false 8572109 (-15)]
          (S754_finite false 8388608 (-21))] 4];
     mkPart [mkMeasure
       [mkNote [S754_finite false 10800180 (-15)]
          (S754_finite false 8388608 (-21))] 4]]
    1 100 1 FP.one 0 0 0 0 [] [].

(** The first part of [Examples.two_measures] and the commands a
    download of it to slot 5 sends. *)
Definition two_measures_part : Part :=
  mkPart [mkMeasure [Examples.a4] 4; mkMeasure [Examples.a4] 4].

Definition two_measures_cmds : list string :=
  ["jingle add 2 2" +:+ LF;
   "jingle note 5 right 0 128 440 600" +:+ LF;
   "jingle note 5 left 0 128 440 600" +:+ LF;
   "jingle note 5 right 1 128 440 600" +:+ LF;
   "jingle note 5 left 1 128 440 600" +:+ LF].

End Timelines.

(** * Properties *)

(** ** The result monad *)

Lemma bind_Ok {A B : Type} (r : result A) (k : A -> result B) (b : B) :
  r ≫= k = Ok b -> exists a, r = Ok a /\ k a = Ok b.
Proof.
  destruct r as [a| |]; simpl; intros H; try discriminate.
  exists a. split; [reflexivity | exact H].
Qed.

Ltac bind_inv H :=
  let a := fresh "a" in
  let E := fresh "E" in
  apply bind_Ok in H; destruct H as (a & E & H).

Lemma size_nonneg {A : Type} (l : list A) : 0 <= size l.
Proof. unfold size. lia. Qed.

Lemma size_app_one {A : Type} (l : list A) (x : A) :
  size (l ++ [x]) = size l + 1.
Proof. unfold size. rewrite length_app. simpl. lia. Qed.

Lemma at_index_lookup {A : Type} (l : list A) (i : Z) (x : A) :
  at_index l i = Ok x <-> l !! Z.to_nat i = Some x.
Proof.
  unfold at_index. destruct (l !! Z.to_nat i); simpl; split; congruence.
Qed.

(** ** Channel and range configuration *)

(** [setMeasStartIdx] does check its argument. *)
Lemma setMeasStartIdx_rejects (i : Z) (c : Composition) :
  getNumMeasures c <= i -> setMeasStartIdx i c = (BAD_IDX, c).
Proof.
  unfold setMeasStartIdx, getNumMeasures. destruct (parts c) as [|p ps].
  - reflexivity.
  - intros H. apply Z.leb_le in H. rewrite H. reflexivity.
Qed.

Lemma setMeasStartIdx_accepts (i : Z) (c : Composition) :
  0 <= i < getNumMeasures c ->
  setMeasStartIdx i c = (NO_ERROR, set_measStartIdx i c).
Proof.
  unfold setMeasStartIdx, getNumMeasures. destruct (parts c) as [|p ps].
  - lia.
  - intros [_ H]. apply Z.leb_gt in H. rewrite H. reflexivity.
Qed.

(** [setMeasEndIdx] tests the stored start index: once that is in range
    every argument is stored. *)
Lemma setMeasEndIdx_stores_any (i : Z) (c : Composition) :
  0 <= measStartIdx c < getNumMeasures c ->
  setMeasEndIdx i c = (NO_ERROR, set_measEndIdx i c).
Proof.
  unfold setMeasEndIdx, getNumMeasures. destruct (parts c) as [|p ps].
  - lia.
  - intros [_ H]. apply Z.leb_gt in H. rewrite H. reflexivity.
Qed.

(** C3 (the code departs from the claim): on a composition of one measure
    with start index 0, [setMeasStartIdx 7] is refused and leaves the
    object as it was, but [setMeasEndIdx 7] returns [NO_ERROR] and stores
    the out-of-range index 7. *)
Theorem setMeasEndIdx_accepts_out_of_range :
  getNumMeasures Examples.one_measure = 1 /\
  setMeasStartIdx 7 Examples.one_measure = (BAD_IDX, Examples.one_measure) /\
  setMeasEndIdx 7 Examples.one_measure
  = (NO_ERROR, set_measEndIdx 7 Examples.one_measure) /\
  getMeasEndIdx (snd (setMeasEndIdx 7 Examples.one_measure)) = 7.
Proof. repeat split. Qed.

(** ** Capacity estimate *)

(** Whatever [byte_cnt] holds, the value returned is 0. *)
Lemma getMemUsage_zero (c : Composition) (v : Z) :
  getMemUsage c = Ok v -> v = 0.
Proof.
  unfold getMemUsage. intros H. bind_inv H. congruence.
Qed.

(** The loop does add up header and note bytes. *)
Lemma memUsage_byte_cnt_two_measures :
  memUsage_byte_cnt Examples.two_measures = Ok 16.
Proof. reflexivity. Qed.

(** C1 (the code departs from the claim): for one part whose first
    measure holds one note, used by both channels over the range [0, 1),
    the estimate the claim words is 4 + 2 * 6 = 16 bytes and the function
    accumulates 16 in [byte_cnt], but [getMemUsage] returns 0. *)
Theorem getMemUsage_returns_zero :
  specMemUsage Examples.two_measures = Some 16 /\
  memUsage_byte_cnt Examples.two_measures = Ok 16 /\
  getMemUsage Examples.two_measures = Ok 0.
Proof. repeat split. Qed.

(** ** Pitch *)

(** The multiplication loop does not run for a count of half steps that
    is zero or negative. *)
Lemma half_step_factor_nonpos (n : Z) :
  n <= 0 -> half_step_factor n = FP.double_of_Z 1.
Proof.
  unfold half_step_factor. destruct n as [|p|p]; simpl; try reflexivity.
  lia.
Qed.

Lemma half_step_factor_succ (n : Z) :
  0 <= n ->
  half_step_factor (n + 1) = FP.muld (half_step_factor n) twelth_root_of_two.
Proof.
  intros H. unfold half_step_factor. destruct n as [|p|p]; try lia.
  - reflexivity.
  - replace (Z.pos p + 1) with (Z.pos (Pos.succ p)) by lia.
    simpl. apply Pos.iter_succ.
Qed.

(** Every pitch at or below C0 resolves to the frequency of C0. *)
Lemma pitchFrequency_nonpos (step : ascii) (alter octave off : Z)
    (freq : FP.float) :
  step_offset step = Some off ->
  is_int (octave * 12) -> is_int (octave * 12 + alter) ->
  is_int (octave * 12 + alter + off) ->
  octave * 12 + alter + off <= 0 ->
  pitchFrequency step alter octave freq
  = Ok (NO_ERROR, FP.float_of_double (FP.muld C_0_FREQ (FP.double_of_Z 1))).
Proof.
  intros Hs H1 H2 H3 Hn. unfold pitchFrequency, HALF_STEPS_PER_OCTAVE.
  assert (Hc : forall z, is_int z -> check_int z = Ok z).
  { intros z [Ha Hb]. unfold check_int.
    apply Z.leb_le in Ha. apply Z.ltb_lt in Hb. rewrite Ha, Hb. reflexivity. }
  rewrite (Hc _ H1). simpl. rewrite (Hc _ H2). simpl. rewrite Hs.
  rewrite (Hc _ H3). simpl. rewrite half_step_factor_nonpos by exact Hn.
  reflexivity.
Qed.

(** For a recognized letter the frequency is C0 times the factor the
    loop builds from the half steps [octave * 12 + alter + offset]. *)
Lemma pitchFrequency_recognized (step : ascii) (alter octave off : Z)
    (freq : FP.float) :
  step_offset step = Some off ->
  is_int (octave * 12) -> is_int (octave * 12 + alter) ->
  is_int (octave * 12 + alter + off) ->
  pitchFrequency step alter octave freq
  = Ok (NO_ERROR,
        FP.float_of_double
          (FP.muld C_0_FREQ (half_step_factor (octave * 12 + alter + off)))).
Proof.
  intros Hs H1 H2 H3. unfold pitchFrequency, HALF_STEPS_PER_OCTAVE.
  assert (Hc : forall z, is_int z -> check_int z = Ok z).
  { intros z [Ha Hb]. unfold check_int.
    apply Z.leb_le in Ha. apply Z.ltb_lt in Hb. rewrite Ha, Hb. reflexivity. }
  rewrite (Hc _ H1). simpl. rewrite (Hc _ H2). simpl. rewrite Hs.
  rewrite (Hc _ H3). reflexivity.
Qed.

Lemma step_offset_table :
  step_offset "C" = Some 0 /\ step_offset "D" = Some 2 /\
  step_offset "E" = Some 4 /\ step_offset "F" = Some 5 /\
  step_offset "G" = Some 7 /\ step_offset "A" = Some 9 /\
  step_offset "B" = Some 11.
Proof. repeat split. Qed.

(** An unrecognized step letter is refused with [XML_PARSE]. *)
Lemma pitchFrequency_bad_step (step : ascii) (alter octave : Z)
    (freq : FP.float) :
  step_offset step = None ->
  is_int (octave * 12) -> is_int (octave * 12 + alter) ->
  pitchFrequency step alter octave freq = Ok (XML_PARSE, freq).
Proof.
  intros Hs [H1 H1'] [H2 H2']. unfold pitchFrequency, check_int, HALF_STEPS_PER_OCTAVE.
  apply Z.leb_le in H1, H2. apply Z.ltb_lt in H1', H2'.
  rewrite H1, H1'. simpl. rewrite H2, H2'. simpl. rewrite Hs. reflexivity.
Qed.

(** A4 comes out as 14416511 * 2^-15 = 439.957... Hz. *)
Example pitchFrequency_A4 :
  pitchFrequency "A" 0 4 FP.zero = Ok (NO_ERROR, S754_finite false 14416511 (-15)).
Proof. vm_compute. reflexivity. Qed.

(** C5 (the code departs from the claim): C flat in octave 0 is -1 half
    steps from C0.  The claim gives 16.35 / 1.0594... = 15.43 Hz; the
    loop [cnt < num_half_steps] does not run, the factor stays 1 and the
    result is the frequency of C0 itself, also when the pitch is read from
    the document. *)
Theorem parseXmlPitch_below_C0 :
  pitchFrequency "C" (-1) 0 FP.zero
  = Ok (NO_ERROR, FP.float_of_double C_0_FREQ) /\
  pitchFrequency "C" 0 0 FP.zero
  = Ok (NO_ERROR, FP.float_of_double C_0_FREQ) /\
  parseXmlPitch Qt.toInt
    (mkReader (Examples.open_tag "pitch")
       (tl (Examples.pitch_element "C" "-1" "0"))) FP.zero
  = Ok (NO_ERROR, mkReader (Examples.close_tag "pitch") [],
        FP.float_of_double C_0_FREQ) /\
  FP.trunc (FP.float_of_double C_0_FREQ) = Some 16.
Proof. vm_compute. repeat split. Qed.

(** ** Downloader *)

Section DownloadProps.

Context {Serial : Type}.
Variable send : Serial -> string -> string -> SerialErrorCode * Serial.

Lemma serial_send_log (l : Link Serial) (cmd resp : string) :
  snd (snd (serial_send Serial send l cmd resp)) = snd l ++ [cmd].
Proof.
  unfold serial_send. destruct (send (fst l) cmd resp). reflexivity.
Qed.

Lemma download_notes_sent (c : Composition) (j : Z) (ns : list Note) :
  forall (cnt : Z) (l : Link Serial) code cnt' l',
    download_notes Serial send c j ns cnt l = Ok (code, cnt', l') ->
    exists sent,
      snd l' = snd l ++ sent /\
      Ok <$> sent `prefix_of` note_cmds c j ns cnt /\
      (code = NO_ERROR ->
       Ok <$> sent = note_cmds c j ns cnt /\ cnt' = next_cnt cnt ns).
Proof.
  induction ns as [|note ns IH]; intros cnt l code cnt' l' H; simpl in H.
  - injection H as <- <- <-. exists []. rewrite app_nil_r.
    repeat split. apply prefix_nil.
  - bind_inv H. rename a into cmdR.
    pose proof (serial_send_log l cmdR
      (cmdR +:+ CR +:+ "Note updated successfully." +:+ LF +:+ CR)) as LR.
    destruct (serial_send Serial send l cmdR _) as [eR lR]. simpl in LR.
    simpl. rewrite E. case_bool_decide as HR.
    + bind_inv H. rename a into cmdL.
      pose proof (serial_send_log lR cmdL
        (cmdL +:+ CR +:+ "Note updated successfully." +:+ LF +:+ CR)) as LL.
      destruct (serial_send Serial send lR cmdL _) as [eL lL]. simpl in LL.
      rewrite E0. case_bool_decide as HL.
      * apply IH in H. destruct H as (sent & Hs & Hp & Hok).
        exists (cmdR :: cmdL :: sent). split.
        { rewrite Hs, LL, LR, <- !app_assoc. reflexivity. }
        split.
        { simpl. apply prefix_cons, prefix_cons, Hp. }
        intros Hc. destruct (Hok Hc) as [Heq ->].
        split; [simpl; do 2 f_equal; exact Heq | reflexivity].
      * injection H as <- <- <-. exists [cmdR; cmdL]. split.
        { rewrite LL, LR, <- app_assoc. reflexivity. }
        split; [|discriminate].
        simpl. apply prefix_cons, prefix_cons, prefix_nil.
    + injection H as <- <- <-. exists [cmdR]. split; [exact LR|].
      split; [|discriminate].
      simpl. apply prefix_cons, prefix_nil.
Qed.

Lemma download_measures_sent (c : Composition) (j : Z) (ms : list Measure) :
  forall (cnt : Z) (l : Link Serial) code cnt' l',
    download_measures Serial send c j ms cnt l = Ok (code, cnt', l') ->
    exists sent,
      snd l' = snd l ++ sent /\
      Ok <$> sent `prefix_of` measure_cmds c j ms cnt /\
      (code = NO_ERROR -> Ok <$> sent = measure_cmds c j ms cnt).
Proof.
  induction ms as [|meas ms IH]; intros cnt l code cnt' l' H; simpl in H.
  - injection H as <- <- <-. exists []. rewrite app_nil_r.
    repeat split. apply prefix_nil.
  - bind_inv H. destruct a as [[code1 cnt1] l1].
    apply download_notes_sent in E. destruct E as (sent1 & Hs1 & Hp1 & Hok1).
    case_bool_decide as Hc1.
    + destruct (Hok1 Hc1) as [Heq1 ->].
      apply IH in H. destruct H as (sent2 & Hs2 & Hp2 & Hok2).
      exists (sent1 ++ sent2). split.
      { rewrite Hs2, Hs1, app_assoc. reflexivity. }
      simpl. rewrite fmap_app, Heq1. split.
      { apply prefix_app, Hp2. }
      intros Hc. rewrite (Hok2 Hc). reflexivity.
    + injection H as <- <- <-. exists sent1. split; [exact Hs1|].
      split; [|intros Hc; contradiction].
      simpl. apply prefix_app_r, Hp1.
Qed.

(** What a download sends is a prefix of [download_cmds], and all of it
    when the download returns [NO_ERROR]: the commands of every measure
    of the first part. *)
Lemma download_sent (c : Composition) (j : Z) (l : Link Serial) code l' :
  download Serial send c l j = Ok (code, l') ->
  exists sent,
    snd l' = snd l ++ sent /\
    Ok <$> sent `prefix_of` download_cmds c j /\
    (code = NO_ERROR -> Ok <$> sent = download_cmds c j).
Proof.
  unfold download, download_cmds, at_index. intros H.
  destruct (parts c) as [|part ps]; simpl in H.
  - injection H as <- <-. exists []. rewrite app_nil_r.
    repeat split. apply prefix_nil.
  - replace (size (part :: ps) <=? 0) with false in H
      by (symmetry; apply Z.leb_gt; unfold size; simpl; lia).
    simpl in H. fold (allocate_cmd (count_notes part)) in H.
    pose proof (serial_send_log l (allocate_cmd (count_notes part))
      (allocate_cmd (count_notes part) +:+ CR +:+
       "Jingle added successfully." +:+ LF +:+ CR)) as LA.
    destruct (serial_send Serial send l _ _) as [eA lA]. simpl in LA.
    fold (count_notes part). case_bool_decide as HA.
    + bind_inv H. destruct a as [[code1 cnt1] l1]. injection H as <- <-.
      apply download_measures_sent in E.
      destruct E as (sent & Hs & Hp & Hok).
      exists (allocate_cmd (count_notes part) :: sent). split.
      { rewrite Hs, LA, <- app_assoc. reflexivity. }
      split; [simpl; apply prefix_cons, Hp|].
      intros Hc. simpl. f_equal. exact (Hok Hc).
    + injection H as <- <-. exists [allocate_cmd (count_notes part)].
      split; [exact LA|]. split; [|discriminate].
      simpl. apply prefix_cons, prefix_nil.
Qed.

End DownloadProps.

Lemma Ok_fmap_inj {A : Type} (l1 l2 : list A) :
  Ok <$> l1 = Ok <$> l2 -> l1 = l2.
Proof.
  revert l2. induction l1 as [|x l1 IH]; intros [|y l2] H;
    simpl in H; try discriminate; [reflexivity|].
  injection H as -> H. f_equal. apply IH, H.
Qed.

Lemma Ok_fmap_prefix {A : Type} (l1 l2 : list A) :
  Ok <$> l1 `prefix_of` Ok <$> l2 -> l1 `prefix_of` l2.
Proof.
  intros [k Hk]. apply fmap_app_inv in Hk.
  destruct Hk as (k1 & k2 & H1 & _ & ->).
  apply Ok_fmap_inj in H1. subst k1. exists k2. reflexivity.
Qed.

(** C9: two runs of [download] on the same composition and slot index,
    against any two transports, hand over the same commands in the same
    order: both sequences are prefixes of one list fixed by the
    composition and the slot index, so one run's sequence is a prefix of
    the other's, and two runs that return [NO_ERROR] send identical
    sequences. *)
Theorem download_deterministic (S1 S2 : Type)
    (send1 : S1 -> string -> string -> SerialErrorCode * S1)
    (send2 : S2 -> string -> string -> SerialErrorCode * S2)
    (c : Composition) (jingleIdx : Z) (s1 s1' : S1) (s2 s2' : S2)
    (code1 code2 : ErrorCode) (sent1 sent2 : list string) :
  download S1 send1 c (s1, []) jingleIdx = Ok (code1, (s1', sent1)) ->
  download S2 send2 c (s2, []) jingleIdx = Ok (code2, (s2', sent2)) ->
  (sent1 `prefix_of` sent2 \/ sent2 `prefix_of` sent1) /\
  (code1 = NO_ERROR -> code2 = NO_ERROR -> sent1 = sent2).
Proof.
  intros H1 H2.
  apply download_sent in H1. destruct H1 as (t1 & E1 & P1 & F1).
  apply download_sent in H2. destruct H2 as (t2 & E2 & P2 & F2).
  simpl in E1, E2. subst t1 t2. split.
  - destruct (prefix_weak_total _ _ _ P1 P2) as [H|H];
      [left|right]; apply Ok_fmap_prefix, H.
  - intros C1 C2. apply Ok_fmap_inj. rewrite (F1 C1), (F2 C2). reflexivity.
Qed.

Lemma download_deterministic_witness :
  ([allocate_cmd 2; "jingle note 5 right 0 128 440 600" +:+ LF;
    "jingle note 5 left 0 128 440 600" +:+ LF;
    "jingle note 5 right 1 128 440 600" +:+ LF;
    "jingle note 5 left 1 128 440 600" +:+ LF]
   `prefix_of`
   [allocate_cmd 2; "jingle note 5 right 0 128 440 600" +:+ LF] \/
   [allocate_cmd 2; "jingle note 5 right 0 128 440 600" +:+ LF]
   `prefix_of`
   [allocate_cmd 2; "jingle note 5 right 0 128 440 600" +:+ LF;
    "jingle note 5 left 0 128 440 600" +:+ LF;
    "jingle note 5 right 1 128 440 600" +:+ LF;
    "jingle note 5 left 1 128 440 600" +:+ LF]) /\
  (NO_ERROR = NO_ERROR -> CMD_ERR = NO_ERROR ->
   [allocate_cmd 2; "jingle note 5 right 0 128 440 600" +:+ LF;
    "jingle note 5 left 0 128 440 600" +:+ LF;
    "jingle note 5 right 1 128 440 600" +:+ LF;
    "jingle note 5 left 1 128 440 600" +:+ LF]
   = [allocate_cmd 2; "jingle note 5 right 0 128 440 600" +:+ LF]).
Proof.
  apply (download_deterministic unit nat Examples.accept Examples.accept_first
           Examples.two_measures 5 tt tt 1%nat 0%nat); vm_compute; reflexivity.
Defined.

(** C10: with no parts [download] returns [NO_ERROR] and leaves the
    transport and the list of commands handed to it as they were: nothing
    is sent, not even the allocate command. *)
Theorem download_no_parts (Serial : Type)
    (send : Serial -> string -> string -> SerialErrorCode * Serial)
    (c : Composition) (l : Link Serial) (jingleIdx : Z) :
  parts c = [] -> download Serial send c l jingleIdx = Ok (NO_ERROR, l).
Proof.
  intros H. unfold download. rewrite H. reflexivity.
Qed.

Lemma download_no_parts_witness :
  parts newComposition = [] /\
  download nat Examples.accept_first newComposition (0%nat, []) 0
  = Ok (NO_ERROR, (0%nat, [])).
Proof.
  split; [reflexivity|].
  apply (download_no_parts nat Examples.accept_first newComposition). reflexivity.
Defined.

(** C2 (the code departs from the claim): the composition has one part of
    two measures with one note each and the configured range is the first
    measure, so the claim gives a note count of 1 and the commands of one
    note.  [download] takes [parts_idx = 0] and all its measures: it
    allocates 2 notes and programs both.  Each note does go to the right
    channel first and then to the left. *)
Theorem download_ignores_measure_range :
  measStartIdx Examples.two_measures = 0 /\
  measEndIdx Examples.two_measures = 1 /\
  notesInRange Examples.two_measures RIGHT = Some 1 /\
  download unit Examples.accept Examples.two_measures (tt, []) 5
  = Ok (NO_ERROR,
        (tt, ["jingle add 2 2" +:+ LF;
              "jingle note 5 right 0 128 440 600" +:+ LF;
              "jingle note 5 left 0 128 440 600" +:+ LF;
              "jingle note 5 right 1 128 440 600" +:+ LF;
              "jingle note 5 left 1 128 440 600" +:+ LF])).
Proof. vm_compute. repeat split. Qed.

(** ** The two stacks of the builder *)

Section BuilderProps.

Variable toUInt : string -> Z.
Variable toInt : string -> Z.

Lemma openBackup_depth (d : Z) (c : Composition) :
  List.length (backups (openBackup d c)) = S (List.length (backups c)) /\
  List.length (prevParts (openBackup d c)) = S (List.length (prevParts c)).
Proof. split; reflexivity. Qed.

Lemma closeBackup_depth (c c' : Composition) :
  closeBackup c = Ok c' ->
  List.length (backups c) = S (List.length (backups c')) /\
  List.length (prevParts c) = S (List.length (prevParts c')).
Proof.
  unfold closeBackup.
  destruct (backups c) as [|b bs] eqn:Eb; [discriminate|].
  destruct (prevParts c) as [|p ps] eqn:Ep; [discriminate|].
  intros H. injection H as <-. split; reflexivity.
Qed.

Lemma closeBackup_balanced (c c' : Composition) :
  closeBackup c = Ok c' -> stacks_balanced c -> stacks_balanced c'.
Proof.
  intros H B. apply closeBackup_depth in H. unfold stacks_balanced in *.
  lia.
Qed.

Lemma closeBackup_backups (c c' : Composition) :
  closeBackup c = Ok c' -> backups c' = tl (backups c).
Proof.
  unfold closeBackup.
  destruct (backups c) as [|b bs]; [discriminate|].
  destruct (prevParts c) as [|p ps]; [discriminate|].
  intros H. injection H as <-. reflexivity.
Qed.

Lemma closeFinishedBackup_balanced (c c' : Composition) :
  closeFinishedBackup c = Ok c' -> stacks_balanced c -> stacks_balanced c'.
Proof.
  unfold closeFinishedBackup. destruct (backups c) as [|top bs] eqn:Eb.
  - intros H. injection H as <-. trivial.
  - destruct (top =? 0).
    + apply closeBackup_balanced.
    + intros H. injection H as <-. trivial.
Qed.

(** [storeNote] never touches the part-restore stack and keeps the
    depth of the backup stack. *)
Lemma storeNote_stacks (nf : NoteFields) (c c' : Composition) code :
  storeNote nf c = Ok (code, c') ->
  prevParts c' = prevParts c /\
  List.length (backups c') = List.length (backups c).
Proof.
  unfold storeNote. intros H.
  bind_inv H. rename a into part. bind_inv H. rename a into meas.
  destruct (nf_isChord nf).
  - destruct (size (notes meas) <? 1).
    + injection H as <- <-. split; reflexivity.
    + bind_inv H. bind_inv H. bind_inv H. injection H as <- <-.
      split; reflexivity.
  - simpl in H. destruct (backups c) as [|top rest] eqn:Eb.
    + injection H as <- <-. simpl. rewrite Eb. split; reflexivity.
    + destruct (top <? nf_raw_xml_duration nf);
        injection H as <- <-; simpl; rewrite ?Eb; split; reflexivity.
Qed.

Lemma storeNote_balanced (nf : NoteFields) (c c' : Composition) code :
  storeNote nf c = Ok (code, c') -> stacks_balanced c -> stacks_balanced c'.
Proof.
  intros H B. apply storeNote_stacks in H. destruct H as [Hp Hb].
  unfold stacks_balanced in *. rewrite Hp, Hb. exact B.
Qed.

Lemma parseXmlNote_balanced (xml xml' : QXmlStreamReader)
    (c c' : Composition) code :
  parseXmlNote toUInt toInt xml c = Ok (code, xml', c') ->
  stacks_balanced c -> stacks_balanced c'.
Proof.
  unfold parseXmlNote. intros H B.
  destruct (negb (named "note" xml) || negb (is_start xml)).
  - injection H as <- <- <-. exact B.
  - bind_inv H. rename a into c1.
    apply closeFinishedBackup_balanced in E; [|exact B].
    bind_inv H. destruct a as [[code1 xml1] nf].
    case_bool_decide.
    + bind_inv H. destruct a as [code2 c2]. injection H as <- <- <-.
      eapply storeNote_balanced; eassumption.
    + injection H as <- <- <-. exact E.
Qed.

Lemma parseXmlBackup_balanced (xml xml' : QXmlStreamReader)
    (c c' : Composition) code :
  parseXmlBackup toUInt xml c = Ok (code, xml', c') ->
  stacks_balanced c -> stacks_balanced c'.
Proof.
  unfold parseXmlBackup. intros H B.
  destruct (negb (named "backup" xml) || negb (is_start xml)).
  - injection H as <- <- <-. exact B.
  - bind_inv H. destruct a as [xml1 duration].
    destruct (duration =? 0); injection H as <- <- <-; [exact B|].
    unfold stacks_balanced in *. simpl. lia.
Qed.

Lemma drain_balanced (bs : list Z) :
  forall (c c' : Composition) code,
    drain bs c = Ok (code, c') -> stacks_balanced c -> stacks_balanced c'.
Proof.
  induction bs as [|top bs IH]; intros c c' code H B; simpl in H.
  - injection H as <- <-. exact B.
  - destruct (top =? 0).
    + bind_inv H. eapply IH; [exact H|].
      eapply closeBackup_balanced; eassumption.
    + injection H as <- <-. exact B.
Qed.

Lemma drainBackups_balanced (c c' : Composition) code :
  drainBackups c = Ok (code, c') -> stacks_balanced c -> stacks_balanced c'.
Proof. apply drain_balanced. Qed.

Lemma parse_turn_balanced (xml : QXmlStreamReader) (c : Composition)
    (t : Turn) :
  parse_turn toUInt toInt xml c = Ok t ->
  stacks_balanced c -> stacks_balanced (turn_object t).
Proof.
  unfold parse_turn, continue_if_ok. intros H B.
  repeat (case_bool_decide || case_match || simplify_eq/=); eauto.
  all: try (bind_inv H; repeat case_match; simplify_eq/=).
  all: eauto using parseXmlNote_balanced, parseXmlBackup_balanced,
         drainBackups_balanced.
  all: repeat case_bool_decide; simplify_eq/=;
    eauto using parseXmlNote_balanced, parseXmlBackup_balanced,
         drainBackups_balanced.
  all: eapply drainBackups_balanced in E; eauto.
Qed.

Lemma parse_states_balanced (fuel : nat) :
  forall (xml : QXmlStreamReader) (c : Composition),
    stacks_balanced c ->
    Forall stacks_balanced (parse_states toUInt toInt fuel xml c).
Proof.
  induction fuel as [|fuel IH]; intros xml c B; simpl.
  - constructor; [exact B | constructor].
  - constructor; [exact B|].
    destruct (parse_turn toUInt toInt xml c) as [t| |] eqn:E;
      try constructor.
    pose proof (parse_turn_balanced _ _ _ E B) as Bt.
    destruct t as [xml1 c1 | code c1]; simpl in Bt.
    + apply IH, Bt.
    + constructor; [exact Bt | constructor].
Qed.

(** The object [parse] returns is the last of [parse_pass]. *)
Lemma parse_loop_last_state (fuel : nat) :
  forall (xml : QXmlStreamReader) (c c' : Composition) code,
    parse_loop toUInt toInt fuel xml c = Ok (code, c') ->
    last (parse_states toUInt toInt fuel xml c) = Some c'.
Proof.
  induction fuel as [|fuel IH]; intros xml c c' code H; simpl in H.
  - discriminate.
  - bind_inv H. simpl. rewrite E. destruct a as [xml1 c1 | code1 c1].
    + apply IH in H.
      destruct (parse_states toUInt toInt fuel xml1 c1) eqn:Es;
        [discriminate | exact H].
    + injection H as <- <-. reflexivity.
Qed.

(** With stacks of equal depth [prevParts.top()] is never taken from an
    empty stack. *)
Lemma closeBackup_defined (c : Composition) :
  stacks_balanced c -> backups c <> [] -> exists c', closeBackup c = Ok c'.
Proof.
  unfold stacks_balanced, closeBackup. intros B Hne.
  destruct (backups c) as [|b bs]; [congruence|].
  destruct (prevParts c) as [|p ps]; [discriminate|].
  eexists. reflexivity.
Qed.

Lemma drain_defined (bs : list Z) :
  forall c, backups c = bs -> stacks_balanced c ->
            exists code c', drain bs c = Ok (code, c').
Proof.
  induction bs as [|top bs IH]; intros c Hb B; simpl.
  - eexists _, _. reflexivity.
  - destruct (top =? 0); [|eexists _, _; reflexivity].
    destruct (closeBackup_defined c B) as [c1 H1]; [rewrite Hb; discriminate|].
    rewrite H1. simpl. apply IH.
    + rewrite (closeBackup_backups c c1 H1), Hb. reflexivity.
    + eapply closeBackup_balanced; eassumption.
Qed.

(** On a note start tag a turn of the loop is [parseXmlNote], and an
    error code it returns is the result of [parse]. *)
Lemma parse_turn_note (xml : QXmlStreamReader) (c : Composition) :
  is_start (readNext xml) = true -> named "note" (readNext xml) = true ->
  parse_turn toUInt toInt xml c
  = '(code, xml', c') ← parseXmlNote toUInt toInt (readNext xml) c;
    Ok (continue_if_ok code xml' c').
Proof.
  intros Hs Hn. unfold parse_turn. rewrite Hs, Hn.
  unfold is_start in Hs. apply bool_decide_eq_true in Hs.
  rewrite bool_decide_eq_false_2 by congruence. reflexivity.
Qed.

Lemma parse_loop_note_error (fuel : nat) (xml xml' : QXmlStreamReader)
    (c c' : Composition) (code : ErrorCode) :
  is_start (readNext xml) = true -> named "note" (readNext xml) = true ->
  parseXmlNote toUInt toInt (readNext xml) c = Ok (code, xml', c') ->
  code <> NO_ERROR ->
  parse_loop toUInt toInt (S fuel) xml c = Ok (code, c').
Proof.
  intros Hs Hn Hp Hc. simpl. rewrite (parse_turn_note xml c Hs Hn), Hp.
  simpl. unfold continue_if_ok.
  rewrite bool_decide_eq_false_2 by exact Hc. reflexivity.
Qed.

End BuilderProps.

Lemma parseXmlBackup_pushes_both (toUInt : string -> Z)
    (xml xml' : QXmlStreamReader) (c c' : Composition) :
  parseXmlBackup toUInt xml c = Ok (NO_ERROR, xml', c') ->
  exists duration,
    backups c' = duration :: backups c /\
    prevParts c' = currPart c :: prevParts c.
Proof.
  unfold parseXmlBackup. intros H.
  destruct (negb (named "backup" xml) || negb (is_start xml));
    [discriminate|].
  bind_inv H. destruct a as [xml1 duration].
  destruct (duration =? 0); [discriminate|].
  injection H as <- <-. exists duration. split; reflexivity.
Qed.

(** C8: starting from an object whose backup stack and part-restore stack
    have the same depth (as the constructor leaves them), backup parsing,
    note parsing and the draining done at a measure start and at a part
    end each return an object whose stacks again have the same depth, and
    so has every object the loop of [parse] passes through, for every
    token sequence. *)
Theorem stacks_keep_equal_depth (toUInt toInt : string -> Z)
    (c : Composition) :
  stacks_balanced c ->
  (forall xml code xml' c',
      parseXmlBackup toUInt xml c = Ok (code, xml', c') ->
      stacks_balanced c') /\
  (forall xml code xml' c',
      parseXmlNote toUInt toInt xml c = Ok (code, xml', c') ->
      stacks_balanced c') /\
  (forall code c', drainBackups c = Ok (code, c') -> stacks_balanced c') /\
  (forall tokens,
      Forall stacks_balanced (parse_pass toUInt toInt tokens c)).
Proof.
  intros B. repeat split.
  - intros xml code xml' c' H. eapply parseXmlBackup_balanced; eassumption.
  - intros xml code xml' c' H. eapply parseXmlNote_balanced; eassumption.
  - intros code c' H. eapply drainBackups_balanced; eassumption.
  - intros tokens. apply parse_states_balanced. exact B.
Qed.

Lemma stacks_keep_equal_depth_witness :
  stacks_balanced newComposition /\
  Forall stacks_balanced
    (parse_pass Qt.toUInt Qt.toInt Documents.two_voices newComposition).
Proof.
  split; [reflexivity|].
  apply (stacks_keep_equal_depth Qt.toUInt Qt.toInt newComposition).
  reflexivity.
Defined.

(** ** End of the document *)

(** A non-zero counter met while draining is refused: the check made at a
    measure start and at a part end. *)
Lemma drainBackups_unresolved (c : Composition) (top : Z) (rest : list Z) :
  backups c = top :: rest -> top <> 0 -> drainBackups c = Ok (XML_PARSE, c).
Proof.
  unfold drainBackups. intros -> H. simpl.
  apply Z.eqb_neq in H. rewrite H. reflexivity.
Qed.

(** When the loop of [parse] reads the end-of-document token it returns
    [NO_ERROR] with the object as it is, open backup scopes included: no
    check follows the loop. *)
Lemma parse_end_of_document_succeeds (toUInt toInt : string -> Z)
    (xml : QXmlStreamReader) (c : Composition) :
  tokenType (current (readNext xml)) = EndDocument ->
  parse_loop toUInt toInt (tokens_left xml) xml c = Ok (NO_ERROR, c).
Proof.
  intros H. unfold tokens_left. simpl. unfold parse_turn.
  rewrite bool_decide_eq_true_2 by exact H. reflexivity.
Qed.

Lemma parse_end_of_document_succeeds_witness :
  tokenType (current (readNext
     (mkReader (Examples.close_tag "backup") [Examples.end_document])))
  = EndDocument /\
  parse_loop Qt.toUInt Qt.toInt 2
    (mkReader (Examples.close_tag "backup") [Examples.end_document])
    (openBackup 4 newComposition)
  = Ok (NO_ERROR, openBackup 4 newComposition).
Proof.
  split; [reflexivity|].
  apply (parse_end_of_document_succeeds Qt.toUInt Qt.toInt
           (mkReader (Examples.close_tag "backup") [Examples.end_document])
           (openBackup 4 newComposition)).
  reflexivity.
Defined.

(** C4 (the code departs from the claim): for a backup of duration 4 that
    no note consumes and the end of the document right after it, [parse]
    returns [NO_ERROR] with the scope still on both stacks, where the
    claim gives a hard error.  The same open scope is refused by the check
    made at a measure start and at a part end, so the same backup inside a
    part is [XML_PARSE]; and the object the accepted parse returns makes
    the next parse of a document that parses with [NO_ERROR] on a new
    object fail at its first measure. *)
Theorem parse_accepts_open_backup :
  parse Qt.toUInt Qt.toInt (Some Documents.dangling_backup) newComposition
  = Ok (NO_ERROR, openBackup 4 newComposition) /\
  backups (openBackup 4 newComposition) = [4] /\
  prevParts (openBackup 4 newComposition) = [0] /\
  drainBackups (openBackup 4 newComposition)
  = Ok (XML_PARSE, openBackup 4 newComposition) /\
  parse Qt.toUInt Qt.toInt (Some Documents.dangling_backup_in_part)
    newComposition
  = Ok (XML_PARSE, openBackup 4 newComposition) /\
  parse Qt.toUInt Qt.toInt (Some Documents.two_voices) newComposition
  = Ok (NO_ERROR, Timelines.two_voices) /\
  parse Qt.toUInt Qt.toInt (Some Documents.two_voices)
    (openBackup 4 newComposition)
  = Ok (XML_PARSE, set_currPart 0 (openBackup 4 newComposition)).
Proof.
  repeat split; vm_compute; reflexivity.
Qed.

(** ** Notes and chords *)

Lemma bind_Ok_l {A B : Type} (a : A) (k : A -> result B) : Ok a ≫= k = k a.
Proof. reflexivity. Qed.

Lemma set_back_snoc {A : Type} (l : list A) (x y : A) :
  set_back x (l ++ [y]) = l ++ [x].
Proof.
  unfold set_back. rewrite length_app. simpl.
  replace (Nat.pred (List.length l + 1)) with (List.length l + 0)%nat by lia.
  rewrite insert_app_r. reflexivity.
Qed.

Lemma size_lt_1 {A : Type} (l : list A) : (size l <? 1) = true <-> l = [].
Proof.
  unfold size. destruct l; simpl; split; intros H; try reflexivity;
    try discriminate.
  apply Z.ltb_lt in H. lia.
Qed.

Section NoteProps.

Variable toUInt : string -> Z.
Variable toInt : string -> Z.

(** With the reader on a note start tag, [parseXmlNote] closes a
    finished backup scope, reads the children and stores the note. *)
Lemma parseXmlNote_store (xml xml' : QXmlStreamReader)
    (c c1 : Composition) (nf : NoteFields) :
  named "note" xml = true -> is_start xml = true ->
  closeFinishedBackup c = Ok c1 ->
  note_children toUInt toInt (tokens_left xml) (currDivisions c1) xml
    noNoteFields = Ok (NO_ERROR, xml', nf) ->
  parseXmlNote toUInt toInt xml c
  = '(code, c') ← storeNote nf c1; Ok (code, xml', c').
Proof.
  intros Hn Hs Hc Hk. unfold parseXmlNote. rewrite Hn, Hs.
  cbn [negb orb]. rewrite Hc, bind_Ok_l, Hk, bind_Ok_l. reflexivity.
Qed.

(** The part and the measure [storeNote] works on exist once the cursor
    is at most one past the last part. *)
Lemma storeNote_finds_measure (c : Composition) :
  0 <= currPart c <= size (parts c) ->
  exists part meas,
    at_index (if size (parts c) <=? currPart c then parts c ++ [emptyPart]
              else parts c) (currPart c) = Ok part /\
    last (if size (measures part) <? 1
          then measures part ++ [emptyMeasure] else measures part)
    = Some meas /\
    notes meas = currentNotes c.
Proof.
  intros [H0 H1]. unfold currentNotes, at_index, size in *.
  destruct (Z.of_nat (List.length (parts c)) <=? currPart c) eqn:E.
  - apply Z.leb_le in E.
    assert (Hi : Z.to_nat (currPart c) = List.length (parts c)) by lia.
    rewrite Hi, lookup_app_r, Nat.sub_diag by lia. simpl.
    rewrite (lookup_ge_None_2 (parts c)) by lia.
    exists emptyPart, emptyMeasure. repeat split.
  - apply Z.leb_gt in E.
    destruct (lookup_lt_is_Some_2 (parts c) (Z.to_nat (currPart c)))
      as [part Hp]; [lia|].
    rewrite Hp. simpl. exists part.
    destruct (measures part) as [|m ms] eqn:Em.
    + exists emptyMeasure. repeat split.
    + replace (Z.of_nat (List.length (m :: ms)) <? 1) with false
        by (symmetry; apply Z.ltb_ge; simpl; lia).
      destruct (last (m :: ms)) as [meas|] eqn:El.
      * exists meas. repeat split.
      * apply last_None in El. discriminate.
Qed.

(** A chord member for a measure without notes is refused. *)
Lemma storeNote_chord_no_note (nf : NoteFields) (c : Composition) :
  nf_isChord nf = true ->
  0 <= currPart c <= size (parts c) ->
  currentNotes c = [] ->
  exists c', storeNote nf c = Ok (XML_PARSE, c').
Proof.
  intros Hch Hr Hn.
  destruct (storeNote_finds_measure c Hr) as (part & meas & Hp & Hm & Hnm).
  unfold storeNote. rewrite Hp, bind_Ok_l, Hm. simpl of_option.
  rewrite bind_Ok_l, Hch, Hnm, Hn. simpl. eexists. reflexivity.
Qed.

(** A chord member for a measure with notes joins the last note. *)
Lemma storeNote_chord_appends (nf : NoteFields) (c : Composition)
    (ns : list Note) (n : Note) (a b : Z) :
  nf_isChord nf = true ->
  currentNotes c = ns ++ [n] ->
  FP.to_int (length n) = Ok a ->
  FP.to_int (nf_length nf) = Ok b ->
  exists part ms meas,
    parts c !! Z.to_nat (currPart c) = Some part /\
    measures part = ms ++ [meas] /\
    notes meas = ns ++ [n] /\
    storeNote nf c
    = Ok (NO_ERROR,
          set_parts
            (<[Z.to_nat (currPart c) :=
                 mkPart (ms ++ [mkMeasure
                   (ns ++ [mkNote (frequencies n ++ [nf_frequency nf])
                             (length n)])
                   (xmlDurationSum meas)])]> (parts c)) c).
Proof.
  intros Hch Hn Ha Hb. unfold currentNotes in Hn.
  destruct (parts c !! Z.to_nat (currPart c)) as [part|] eqn:Hp;
    [|destruct ns; discriminate].
  destruct (last (measures part)) as [meas|] eqn:Hl;
    [|destruct ns; discriminate].
  apply last_Some in Hl. destruct Hl as [ms Hms].
  exists part, ms, meas. repeat split; try assumption.
  pose proof (lookup_lt_Some _ _ _ Hp) as Hlt.
  unfold storeNote, at_index.
  replace (size (parts c) <=? currPart c) with false
    by (symmetry; apply Z.leb_gt; unfold size; lia).
  rewrite Hp. simpl of_option. rewrite bind_Ok_l.
  replace (size (measures part) <? 1) with false
    by (symmetry; apply Z.ltb_ge; rewrite Hms, size_app_one;
        pose proof (size_nonneg ms); lia).
  rewrite Hms, last_snoc. simpl of_option. rewrite bind_Ok_l, Hch.
  replace (size (notes meas) <? 1) with false
    by (symmetry; apply Z.ltb_ge; rewrite Hn, size_app_one;
        pose proof (size_nonneg ns); lia).
  rewrite Hn, last_snoc. simpl of_option.
  rewrite bind_Ok_l, Ha, bind_Ok_l, Hb, bind_Ok_l.
  rewrite !set_back_snoc. reflexivity.
Qed.

End NoteProps.

(** C6: a note element with the chord marker, read with the reader on its
    start tag; [c1] is the object after the entry check on finished
    backup scopes and [nf] what the children set.  With no note in the
    current measure the call fails with [XML_PARSE].  With notes [ns ++ [n]]
    it returns [NO_ERROR]: the frequency is appended to the frequencies of
    [n], the measure keeps its number of notes and [n] keeps its length,
    whatever the length of the chord member (nothing relates the two
    lengths beyond both being convertible for the comparison). *)
Theorem chord_member_joins_last_note (toUInt toInt : string -> Z)
    (xml xml' : QXmlStreamReader) (c c1 : Composition) (nf : NoteFields) :
  named "note" xml = true -> is_start xml = true ->
  closeFinishedBackup c = Ok c1 ->
  note_children toUInt toInt (tokens_left xml) (currDivisions c1) xml
    noNoteFields = Ok (NO_ERROR, xml', nf) ->
  nf_isChord nf = true ->
  0 <= currPart c1 <= size (parts c1) ->
  (currentNotes c1 = [] ->
   exists c', parseXmlNote toUInt toInt xml c = Ok (XML_PARSE, xml', c')) /\
  (forall ns n a b,
      currentNotes c1 = ns ++ [n] ->
      FP.to_int (length n) = Ok a ->
      FP.to_int (nf_length nf) = Ok b ->
      exists c',
        parseXmlNote toUInt toInt xml c = Ok (NO_ERROR, xml', c') /\
        chord_joined nf ns n c1 c').
Proof.
  intros Hn Hs Hc Hk Hch Hr.
  rewrite (parseXmlNote_store toUInt toInt xml xml' c c1 nf Hn Hs Hc Hk).
  split.
  - intros He. destruct (storeNote_chord_no_note nf c1 Hch Hr He) as [c' H].
    exists c'. rewrite H. reflexivity.
  - intros ns n a b Hcur Ha Hb.
    destruct (storeNote_chord_appends nf c1 ns n a b Hch Hcur Ha Hb)
      as (part & ms & meas & Hp & Hms & Hnm & H).
    eexists. rewrite H, bind_Ok_l. split; [reflexivity|].
    pose proof (lookup_lt_Some _ _ _ Hp) as Hlt.
    unfold chord_joined.
    assert (Hcur' : currentNotes
      (set_parts
         (<[Z.to_nat (currPart c1) :=
              mkPart (ms ++ [mkMeasure
                (ns ++ [mkNote (frequencies n ++ [nf_frequency nf])
                          (length n)]) (xmlDurationSum meas)])]> (parts c1))
         c1)
      = ns ++ [mkNote (frequencies n ++ [nf_frequency nf]) (length n)]).
    { unfold currentNotes. simpl.
      rewrite list_lookup_insert_eq by exact Hlt. simpl.
      rewrite last_snoc. reflexivity. }
    split; [exact Hcur'|]. split.
    { rewrite Hcur', Hcur, !size_app_one. reflexivity. }
    repeat split; try reflexivity.
    exists part, ms, meas. repeat split; assumption.
Qed.

Lemma chord_member_joins_last_note_witness :
  exists c',
    parseXmlNote Qt.toUInt Qt.toInt ChordExample.chord_note
      ChordExample.after_a4
    = Ok (NO_ERROR, mkReader (Examples.close_tag "note") [], c') /\
    chord_joined ChordExample.chord_fields [] Examples.a4
      ChordExample.after_a4 c'.
Proof.
  apply (proj2 (chord_member_joins_last_note Qt.toUInt Qt.toInt
                  ChordExample.chord_note
                  (mkReader (Examples.close_tag "note") [])
                  ChordExample.after_a4 ChordExample.after_a4
                  ChordExample.chord_fields
                  eq_refl eq_refl eq_refl eq_refl eq_refl
                  (conj (Z.le_refl 0) (Z.le_0_1)))
          [] Examples.a4 1 2); reflexivity.
Defined.

(** ** Notes inside a backup scope *)

Lemma wrap32_small (z : Z) : is_uint32 z -> wrap32 z = z.
Proof. unfold is_uint32, wrap32. intros H. apply Z.mod_small. exact H. Qed.

(** A new note is appended to the current measure and charged to the open
    backup scope: refused when it is longer than what is left of the
    scope, otherwise taken off the top counter.  Either way the restore
    stack and the rest of the backup stack stay. *)
Lemma storeNote_charges_backup (nf : NoteFields) (c : Composition)
    (top : Z) (rest : list Z) :
  nf_isChord nf = false ->
  0 <= currPart c <= size (parts c) ->
  backups c = top :: rest ->
  exists c',
    storeNote nf c
    = Ok (if top <? nf_raw_xml_duration nf then XML_PARSE else NO_ERROR, c') /\
    backups c'
    = (if top <? nf_raw_xml_duration nf then top
       else wrap32 (top - nf_raw_xml_duration nf)) :: rest /\
    prevParts c' = prevParts c /\
    currentNotes c'
    = currentNotes c ++ [mkNote [nf_frequency nf] (nf_length nf)].
Proof.
  intros Hch Hr Hb.
  destruct (storeNote_finds_measure c Hr) as (part & meas & Hp & Hm & Hnm).
  unfold storeNote. rewrite Hp, bind_Ok_l, Hm. simpl of_option.
  rewrite bind_Ok_l, Hch. cbv zeta.
  match goal with
  | |- context [set_parts ?ps c] => set (c2 := set_parts ps c)
  end.
  assert (Hb2 : backups c2 = top :: rest) by exact Hb.
  assert (Hn2 : currentNotes c2
                = currentNotes c ++ [mkNote [nf_frequency nf] (nf_length nf)]).
  { subst c2. unfold currentNotes at 1. simpl.
    apply at_index_lookup in Hp. pose proof (lookup_lt_Some _ _ _ Hp) as Hlt.
    rewrite list_lookup_insert_eq by exact Hlt. simpl.
    apply last_Some in Hm. destruct Hm as [ms Hms]. rewrite Hms.
    rewrite set_back_snoc, last_snoc. simpl. rewrite Hnm. reflexivity. }
  rewrite Hb2. destruct (top <? nf_raw_xml_duration nf).
  - exists c2. repeat split; assumption.
  - eexists. split; [reflexivity|]. repeat split. exact Hn2.
Qed.

(** C7: a note element without the chord marker, read with the reader on
    its start tag; [c1] is the object after the entry check on finished
    backup scopes, with [top] on its backup stack, and [nf] what the
    children set.  A raw duration above [top] makes the call fail with
    [XML_PARSE] and both stacks are those of [c1]; otherwise the call
    returns [NO_ERROR] and the top counter is [top] minus the raw
    duration, the rest of the stacks unchanged. *)
Theorem note_charges_open_backup (toUInt toInt : string -> Z)
    (xml xml' : QXmlStreamReader) (c c1 : Composition) (nf : NoteFields)
    (top : Z) (rest : list Z) :
  named "note" xml = true -> is_start xml = true ->
  closeFinishedBackup c = Ok c1 ->
  note_children toUInt toInt (tokens_left xml) (currDivisions c1) xml
    noNoteFields = Ok (NO_ERROR, xml', nf) ->
  nf_isChord nf = false ->
  0 <= currPart c1 <= size (parts c1) ->
  backups c1 = top :: rest ->
  is_uint32 top -> 0 <= nf_raw_xml_duration nf ->
  (top < nf_raw_xml_duration nf ->
   exists c',
     parseXmlNote toUInt toInt xml c = Ok (XML_PARSE, xml', c') /\
     backups c' = top :: rest /\ prevParts c' = prevParts c1) /\
  (nf_raw_xml_duration nf <= top ->
   exists c',
     parseXmlNote toUInt toInt xml c = Ok (NO_ERROR, xml', c') /\
     backups c' = (top - nf_raw_xml_duration nf) :: rest /\
     prevParts c' = prevParts c1).
Proof.
  intros Hn Hs Hc Hk Hch Hr Hb Ht Hraw.
  rewrite (parseXmlNote_store toUInt toInt xml xml' c c1 nf Hn Hs Hc Hk).
  destruct (storeNote_charges_backup nf c1 top rest Hch Hr Hb)
    as (c' & H & Hb' & Hp' & _).
  rewrite H, bind_Ok_l. split; intros Hcmp; exists c'.
  - apply Z.ltb_lt in Hcmp. rewrite Hcmp in Hb' |- *.
    repeat split; assumption.
  - apply Z.ltb_ge in Hcmp. rewrite Hcmp in Hb' |- *.
    rewrite wrap32_small in Hb' by (unfold is_uint32 in *; lia).
    repeat split; assumption.
Qed.

Lemma note_charges_open_backup_witness :
  exists c',
    parseXmlNote Qt.toUInt Qt.toInt BackupExample.short_note
      BackupExample.in_backup
    = Ok (NO_ERROR, mkReader (Examples.close_tag "note") [], c') /\
    backups c' = [4 - 3] /\ prevParts c' = [0].
Proof.
  apply (proj2 (note_charges_open_backup Qt.toUInt Qt.toInt
                  BackupExample.short_note
                  (mkReader (Examples.close_tag "note") [])
                  BackupExample.in_backup BackupExample.in_backup
                  BackupExample.short_fields 4 []
                  eq_refl eq_refl eq_refl eq_refl eq_refl
                  (conj Z.le_0_1 (Z.le_refl 1)) eq_refl
                  (conj (Z.lt_le_incl 0 4 eq_refl) eq_refl)
                  (Z.lt_le_incl 0 3 eq_refl))).
  vm_compute. discriminate.
Defined.

(** ** Fuel

    The loops that read tokens are given [tokens_left] as fuel.  That is
    enough: more fuel never changes a result, and [Loops] is reported only
    when the reader has run dry inside a loop, where the source keeps
    reading [Invalid] tokens for ever. *)

Lemma readNext_dry (xml : QXmlStreamReader) :
  pending xml = [] -> readNext xml = dry.
Proof. unfold readNext. intros ->. reflexivity. Qed.

Lemma readNext_pending (xml : QXmlStreamReader) :
  (List.length (pending (readNext xml)) <= List.length (pending xml))%nat.
Proof. unfold readNext. destruct (pending xml); simpl; lia. Qed.

Lemma readNext_pending_lt (xml : QXmlStreamReader) :
  pending xml <> [] ->
  (List.length (pending (readNext xml)) < List.length (pending xml))%nat.
Proof. unfold readNext. destruct (pending xml); simpl; [congruence | lia]. Qed.

Section Fuel.

Variable toUInt : string -> Z.
Variable toInt : string -> Z.

Lemma pitch_children_dry (n : nat) :
  forall step alter octave,
    pitch_children toInt n dry step alter octave = Loops.
Proof.
  induction n as [|n IH]; intros step alter octave; [reflexivity|].
  simpl. apply IH.
Qed.

Lemma pitch_children_fuel (n : nat) :
  forall (m : nat) (xml : QXmlStreamReader) step alter octave,
    (List.length (pending xml) < n)%nat -> (n <= m)%nat ->
    pitch_children toInt m xml step alter octave
    = pitch_children toInt n xml step alter octave.
Proof.
  induction n as [|n IH]; intros m xml step alter octave Hn Hm; [lia|].
  destruct m as [|m]; [lia|].
  destruct (pending xml) as [|t ts] eqn:Ep.
  - simpl. rewrite (readNext_dry xml Ep). simpl.
    rewrite !pitch_children_dry. reflexivity.
  - assert (H1 : (List.length (pending (readNext xml)) < n)%nat).
    { assert (Hne : pending xml <> []) by (rewrite Ep; discriminate).
      pose proof (readNext_pending_lt xml Hne) as Hlt.
      rewrite Ep in Hlt. lia. }
    assert (H2 : (List.length (pending (readNext (readNext xml))) < n)%nat).
    { pose proof (readNext_pending (readNext xml)). lia. }
    simpl. repeat case_match; try reflexivity;
      try (apply IH; [assumption | lia]).
    all: destruct (first_char _); simpl; try reflexivity;
      apply IH; [assumption | lia].
Qed.

Lemma pitch_children_pending (n : nat) :
  forall (xml xml' : QXmlStreamReader) step alter octave r,
    pitch_children toInt n xml step alter octave = Ok (xml', r) ->
    (List.length (pending xml') <= List.length (pending xml))%nat.
Proof.
  induction n as [|n IH]; intros xml xml' step alter octave r H;
    [discriminate|].
  simpl in H.
  pose proof (readNext_pending xml) as H1.
  pose proof (readNext_pending (readNext xml)) as H2.
  repeat case_match; simplify_eq; try lia;
    try (apply IH in H; lia).
  all: bind_inv H; apply IH in H; lia.
Qed.

Lemma parseXmlPitch_pending (xml xml' : QXmlStreamReader) freq freq' code :
  parseXmlPitch toInt xml freq = Ok (code, xml', freq') ->
  (List.length (pending xml') <= List.length (pending xml))%nat.
Proof.
  unfold parseXmlPitch. intros H. case_match.
  - simplify_eq. lia.
  - bind_inv H. destruct a as [xml1 [[step alter] octave]].
    apply pitch_children_pending in E. bind_inv H. destruct a as [c f].
    simplify_eq. exact E.
Qed.

Lemma backup_children_dry (n : nat) :
  forall duration, backup_children toUInt n dry duration = Loops.
Proof.
  induction n as [|n IH]; intros duration; [reflexivity|].
  simpl. apply IH.
Qed.

Lemma backup_children_fuel (n : nat) :
  forall (m : nat) (xml : QXmlStreamReader) duration,
    (List.length (pending xml) < n)%nat -> (n <= m)%nat ->
    backup_children toUInt m xml duration
    = backup_children toUInt n xml duration.
Proof.
  induction n as [|n IH]; intros m xml duration Hn Hm; [lia|].
  destruct m as [|m]; [lia|].
  destruct (pending xml) as [|t ts] eqn:Ep.
  - simpl. rewrite (readNext_dry xml Ep). simpl.
    rewrite !backup_children_dry. reflexivity.
  - assert (H1 : (List.length (pending (readNext xml)) < n)%nat).
    { assert (Hne : pending xml <> []) by (rewrite Ep; discriminate).
      pose proof (readNext_pending_lt xml Hne) as Hlt.
      rewrite Ep in Hlt. lia. }
    assert (H2 : (List.length (pending (readNext (readNext xml))) < n)%nat).
    { pose proof (readNext_pending (readNext xml)). lia. }
    simpl. repeat case_match; try reflexivity;
      apply IH; assumption || lia.
Qed.

Lemma backup_children_pending (n : nat) :
  forall (xml xml' : QXmlStreamReader) duration duration',
    backup_children toUInt n xml duration = Ok (xml', duration') ->
    (List.length (pending xml') <= List.length (pending xml))%nat.
Proof.
  induction n as [|n IH]; intros xml xml' duration duration' H;
    [discriminate|].
  simpl in H.
  pose proof (readNext_pending xml) as H1.
  pose proof (readNext_pending (readNext xml)) as H2.
  repeat case_match; simplify_eq; try lia; apply IH in H; lia.
Qed.

Lemma parseXmlBackup_pending (xml xml' : QXmlStreamReader) c c' code :
  parseXmlBackup toUInt xml c = Ok (code, xml', c') ->
  (List.length (pending xml') <= List.length (pending xml))%nat.
Proof.
  unfold parseXmlBackup. intros H. case_match.
  - simplify_eq. lia.
  - bind_inv H. destruct a as [xml1 duration].
    apply backup_children_pending in E. case_match; simplify_eq; exact E.
Qed.

Lemma note_children_dry (n : nat) :
  forall divisions nf,
    note_children toUInt toInt n divisions dry nf = Loops.
Proof.
  induction n as [|n IH]; intros divisions nf; [reflexivity|].
  simpl. apply IH.
Qed.

Lemma note_children_fuel (n : nat) :
  forall (m : nat) divisions (xml : QXmlStreamReader) nf,
    (List.length (pending xml) < n)%nat -> (n <= m)%nat ->
    note_children toUInt toInt m divisions xml nf
    = note_children toUInt toInt n divisions xml nf.
Proof.
  induction n as [|n IH]; intros m divisions xml nf Hn Hm; [lia|].
  destruct m as [|m]; [lia|].
  destruct (pending xml) as [|t ts] eqn:Ep.
  - simpl. rewrite (readNext_dry xml Ep). simpl.
    rewrite !note_children_dry. reflexivity.
  - assert (H1 : (List.length (pending (readNext xml)) < n)%nat).
    { assert (Hne : pending xml <> []) by (rewrite Ep; discriminate).
      pose proof (readNext_pending_lt xml Hne) as Hlt.
      rewrite Ep in Hlt. lia. }
    assert (H2 : (List.length (pending (readNext (readNext xml))) < n)%nat).
    { pose proof (readNext_pending (readNext xml)). lia. }
    simpl. repeat case_match; try reflexivity;
      try (apply IH; [assumption | lia]).
    destruct (parseXmlPitch toInt (readNext xml) (nf_frequency nf))
      as [[[code xml1] frequency]| |] eqn:Epitch; try reflexivity.
    simpl. apply parseXmlPitch_pending in Epitch.
    case_bool_decide; [|reflexivity].
    apply IH; lia.
Qed.

Lemma note_children_pending (n : nat) :
  forall divisions (xml xml' : QXmlStreamReader) nf nf' code,
    note_children toUInt toInt n divisions xml nf = Ok (code, xml', nf') ->
    (List.length (pending xml') <= List.length (pending xml))%nat.
Proof.
  induction n as [|n IH]; intros divisions xml xml' nf nf' code H;
    [discriminate|].
  simpl in H.
  pose proof (readNext_pending xml) as H1.
  pose proof (readNext_pending (readNext xml)) as H2.
  repeat case_match; simplify_eq; try lia;
    try (apply IH in H; lia).
  bind_inv H. destruct a as [[code1 xml1] frequency].
  apply parseXmlPitch_pending in E.
  case_bool_decide; [apply IH in H; lia | simplify_eq; lia].
Qed.

Lemma parseXmlNote_pending (xml xml' : QXmlStreamReader) c c' code :
  parseXmlNote toUInt toInt xml c = Ok (code, xml', c') ->
  (List.length (pending xml') <= List.length (pending xml))%nat.
Proof.
  unfold parseXmlNote. intros H. case_match.
  - simplify_eq. lia.
  - bind_inv H. bind_inv H. destruct a0 as [[code1 xml1] nf].
    apply note_children_pending in E0.
    case_bool_decide.
    + bind_inv H. destruct a0 as [code2 c2]. simplify_eq. exact E0.
    + simplify_eq. exact E0.
Qed.

(** A turn of the loop of [parse] uses up at least one token, and on a
    dry reader it goes on with the dry reader. *)
Lemma parse_turn_dry (c : Composition) :
  parse_turn toUInt toInt dry c = Ok (Continue dry c).
Proof. reflexivity. Qed.

Lemma parse_turn_pending (xml xml' : QXmlStreamReader) c c' :
  pending xml <> [] ->
  parse_turn toUInt toInt xml c = Ok (Continue xml' c') ->
  (List.length (pending xml') < List.length (pending xml))%nat.
Proof.
  intros Hne H.
  pose proof (readNext_pending_lt xml Hne) as H1.
  pose proof (readNext_pending (readNext xml)) as H2.
  unfold parse_turn, continue_if_ok in H.
  repeat case_match; simplify_eq; try lia.
  - bind_inv H. destruct a as [[code xml1] c1].
    apply parseXmlNote_pending in E. case_bool_decide; simplify_eq. lia.
  - bind_inv H. destruct a as [[code xml1] c1].
    apply parseXmlBackup_pending in E. case_bool_decide; simplify_eq. lia.
  - bind_inv H. destruct a as [code c1].
    case_bool_decide; simplify_eq. lia.
  - bind_inv H. destruct a as [code c1].
    case_bool_decide; simplify_eq. lia.
Qed.

Lemma parse_loop_dry (n : nat) :
  forall c, parse_loop toUInt toInt n dry c = Loops.
Proof.
  induction n as [|n IH]; intros c; [reflexivity|].
  simpl. apply IH.
Qed.

Lemma parse_loop_fuel (n : nat) :
  forall (m : nat) (xml : QXmlStreamReader) (c : Composition),
    (List.length (pending xml) < n)%nat -> (n <= m)%nat ->
    parse_loop toUInt toInt m xml c = parse_loop toUInt toInt n xml c.
Proof.
  induction n as [|n IH]; intros m xml c Hn Hm; [lia|].
  destruct m as [|m]; [lia|].
  simpl.
  destruct (parse_turn toUInt toInt xml c) as [[xml1 c1|code c1]| |] eqn:Et;
    try reflexivity.
  simpl. destruct (pending xml) as [|t ts] eqn:Ep.
  - assert (Hd : xml1 = dry).
    { unfold parse_turn in Et. rewrite (readNext_dry xml Ep) in Et.
      simpl in Et. congruence. }
    subst xml1. rewrite !parse_loop_dry. reflexivity.
  - assert (Hne : pending xml <> []) by (rewrite Ep; discriminate).
    pose proof (parse_turn_pending xml xml1 c c1 Hne Et) as Hlt.
    rewrite Ep in Hlt. apply IH; simpl in *; lia.
Qed.

(** [parse] does not depend on the fuel once there is one unit for each
    token and one more. *)
Lemma parse_fuel_enough (tokens : list Token) (c : Composition) (n : nat) :
  (tokens_left (setDevice tokens) <= n)%nat ->
  parse_loop toUInt toInt n (setDevice tokens)
    (set_currPart 0 (set_parts [] c))
  = parse toUInt toInt (Some tokens) c.
Proof.
  intros H. unfold parse. apply parse_loop_fuel; unfold tokens_left in *; lia.
Qed.

(** A token sequence that does not end the document makes [parse] read
    [Invalid] tokens for ever once it has passed through it without an
    error: the model reports [Loops], never a result. *)
Lemma parse_loop_no_tokens (n : nat) (xml : QXmlStreamReader)
    (c : Composition) :
  pending xml = [] -> parse_loop toUInt toInt n xml c = Loops.
Proof.
  intros H. destruct n as [|n]; [reflexivity|].
  simpl. unfold parse_turn. rewrite (readNext_dry xml H). simpl.
  apply parse_loop_dry.
Qed.

End Fuel.


(** * Further properties *)

(** ** Chord query *)

Lemma largest_chord_nonneg (ns : list Note) : 0 <= largest_chord ns.
Proof.
  induction ns as [|note ns IH]; unfold largest_chord in *; simpl; lia.
Qed.

Lemma largest_chord_app (ns1 ns2 : list Note) :
  largest_chord (ns1 ++ ns2) = Z.max (largest_chord ns1) (largest_chord ns2).
Proof.
  induction ns1 as [|note ns1 IH]; unfold largest_chord in *; simpl.
  - pose proof (largest_chord_nonneg ns2). unfold largest_chord in *. lia.
  - rewrite IH. lia.
Qed.

Lemma max_chord_notes_max (ns : list Note) :
  forall m, 0 <= m -> max_chord_notes ns m = Z.max m (largest_chord ns).
Proof.
  induction ns as [|note ns IH]; intros m Hm; simpl.
  - unfold largest_chord. simpl. lia.
  - pose proof (size_nonneg (frequencies note)).
    unfold largest_chord. simpl. fold (largest_chord ns).
    destruct (m <? size (frequencies note)) eqn:E.
    + apply Z.ltb_lt in E. rewrite IH by lia. lia.
    + apply Z.ltb_ge in E. rewrite IH by lia. lia.
Qed.

(** The loop over measures [idx, idx + n) that all exist. *)
Lemma numChords_loop_max (part : Part) (n : nat) :
  forall (idx m : Z),
    0 <= idx -> 0 <= m ->
    (Z.to_nat idx + n <= List.length (measures part))%nat ->
    numChords_loop n idx part m
    = Ok (Z.max m (largest_chord
            (notes_in (take n (drop (Z.to_nat idx) (measures part)))))).
Proof.
  induction n as [|n IH]; intros idx m Hi Hm Hn; simpl.
  - unfold notes_in, largest_chord. simpl. f_equal. lia.
  - destruct (lookup_lt_is_Some_2 (measures part) (Z.to_nat idx))
      as [meas Hl]; [lia|].
    unfold at_index. rewrite Hl. simpl.
    rewrite IH; [| lia | | lia].
    2:{ rewrite max_chord_notes_max by exact Hm.
        pose proof (largest_chord_nonneg (notes meas)). lia. }
    rewrite max_chord_notes_max by exact Hm.
    rewrite (drop_S _ _ _ Hl). simpl. unfold notes_in. simpl.
    rewrite largest_chord_app.
    replace (Z.to_nat (idx + 1)) with (S (Z.to_nat idx)) by lia.
    f_equal. symmetry. apply Z.max_assoc.
Qed.

(** The measures [getNumChords] can look at leave out the last one of
    the part: both bounds must be below the number of measures. *)
Lemma measures_in_init (ms : list Measure) (meas : Measure) (s e : Z) :
  0 <= s -> e < size (ms ++ [meas]) ->
  measures_in (mkPart (ms ++ [meas])) s e = measures_in (mkPart ms) s e.
Proof.
  intros Hs He. unfold measures_in. simpl. rewrite size_app_one in He.
  unfold size in He.
  destruct (decide (Z.to_nat s <= List.length ms)%nat) as [Hle|Hgt].
  - rewrite drop_app_le by exact Hle. rewrite take_app_le; [reflexivity|].
    rewrite length_drop. lia.
  - rewrite !drop_ge; [reflexivity | lia |].
    rewrite length_app. simpl. lia.
Qed.


Lemma lookup_index_lt {A : Type} (l : list A) (i : Z) (x : A) :
  0 <= i -> l !! Z.to_nat i = Some x -> (size l <=? i) = false.
Proof.
  intros Hi Hl. apply lookup_lt_Some in Hl. apply Z.leb_gt. unfold size. lia.
Qed.

Lemma getNumChords_in_range (c : Composition) (part : Part)
    (partIdx start end_ : Z) :
  0 <= partIdx -> 0 <= start ->
  parts c !! Z.to_nat partIdx = Some part ->
  start < size (measures part) -> end_ < size (measures part) ->
  getNumChords partIdx start end_ c
  = Ok (largest_chord (notes_in (measures_in part start end_))).
Proof.
  intros Hp Hs Hl Hs' He. unfold getNumChords, at_index.
  rewrite (lookup_index_lt _ _ _ Hp Hl), Hl. simpl.
  replace (size (measures part) <=? start) with false
    by (symmetry; apply Z.leb_gt; exact Hs').
  replace (size (measures part) <=? end_) with false
    by (symmetry; apply Z.leb_gt; exact He).
  simpl. unfold size in *. rewrite numChords_loop_max by lia.
  unfold measures_in. f_equal. apply Z.max_r, largest_chord_nonneg.
Qed.

(** X1: for an existing part and bounds that are both below its number of
    measures, [getNumChords] returns the largest number of frequencies
    held by a note of the measures [start, end), 0 when there is none. *)
Theorem getNumChords_largest_chord (c : Composition) (part : Part)
    (partIdx start end_ : Z) :
  0 <= partIdx -> 0 <= start ->
  parts c !! Z.to_nat partIdx = Some part ->
  start < size (measures part) -> end_ < size (measures part) ->
  getNumChords partIdx start end_ c
  = Ok (largest_chord (notes_in (measures_in part start end_))).
Proof.
  intros Hp Hs Hl Hs' He. unfold getNumChords, at_index.
  rewrite (lookup_index_lt _ _ _ Hp Hl), Hl. simpl.
  replace (size (measures part) <=? start) with false
    by (symmetry; apply Z.leb_gt; exact Hs').
  replace (size (measures part) <=? end_) with false
    by (symmetry; apply Z.leb_gt; exact He).
  simpl. unfold size in *. rewrite numChords_loop_max by lia.
  unfold measures_in. f_equal. apply Z.max_r, largest_chord_nonneg.
Qed.

Lemma getNumChords_largest_chord_witness :
  getNumChords 0 0 1 Examples.two_measures
  = Ok (largest_chord
          (notes_in (measures_in
             (mkPart [mkMeasure [Examples.a4] 4; mkMeasure [Examples.a4] 4])
             0 1))).
Proof.
  apply (getNumChords_largest_chord Examples.two_measures
           (mkPart [mkMeasure [Examples.a4] 4; mkMeasure [Examples.a4] 4])
           0 0 1); reflexivity.
Defined.

(** X2: [getNumChords] never indexes out of bounds: for every part index,
    start and end it returns a number, and that number is 0 as soon as the
    part does not exist or one of the two bounds is not below the part's
    number of measures, the end bound equal to that number included. *)
Theorem getNumChords_defined (c : Composition) (partIdx start end_ : Z) :
  0 <= partIdx -> 0 <= start ->
  exists v,
    getNumChords partIdx start end_ c = Ok v /\ 0 <= v /\
    (forall part,
        parts c !! Z.to_nat partIdx = Some part ->
        size (measures part) <= start \/ size (measures part) <= end_ ->
        v = 0) /\
    (parts c !! Z.to_nat partIdx = None -> v = 0).
Proof.
  intros Hp Hs.
  destruct (parts c !! Z.to_nat partIdx) as [part|] eqn:Hl.
  - destruct (Z_lt_dec start (size (measures part))) as [Hs'|Hs'];
      [destruct (Z_lt_dec end_ (size (measures part))) as [He|He]|].
    + exists (largest_chord (notes_in (measures_in part start end_))).
      split; [apply getNumChords_in_range; assumption|].
      split; [apply largest_chord_nonneg|].
      split; [|discriminate].
      intros part' H [H1|H1]; injection H as <-; lia.
    + exists 0. unfold getNumChords, at_index.
      rewrite (lookup_index_lt _ _ _ Hp Hl), Hl. simpl.
      replace (size (measures part) <=? end_) with true
        by (symmetry; apply Z.leb_le; lia).
      rewrite orb_true_r.
      repeat split; intros; try reflexivity; try discriminate.
    + exists 0. unfold getNumChords, at_index.
      rewrite (lookup_index_lt _ _ _ Hp Hl), Hl. simpl.
      replace (size (measures part) <=? start) with true
        by (symmetry; apply Z.leb_le; lia).
      repeat split; intros; try reflexivity; try discriminate.
  - exists 0. unfold getNumChords.
    apply lookup_ge_None in Hl.
    replace (size (parts c) <=? partIdx) with true
      by (symmetry; apply Z.leb_le; unfold size; lia).
    repeat split; intros; try reflexivity; try discriminate.
Qed.

Lemma getNumChords_defined_witness :
  exists v,
    getNumChords 0 0 2 Examples.two_measures = Ok v /\ 0 <= v /\
    (forall part,
        parts Examples.two_measures !! Z.to_nat 0 = Some part ->
        size (measures part) <= 0 \/ size (measures part) <= 2 ->
        v = 0) /\
    (parts Examples.two_measures !! Z.to_nat 0 = None -> v = 0).
Proof.
  apply (getNumChords_defined Examples.two_measures 0 0 2); reflexivity.
Defined.

(** X3: the last measure of a part is never looked at by [getNumChords]:
    putting any other measure in its place leaves the result the same,
    for every start and end. *)
Theorem getNumChords_skips_last_measure (c : Composition)
    (ms : list Measure) (meas meas' : Measure) (partIdx start end_ : Z) :
  0 <= partIdx -> 0 <= start ->
  parts c !! Z.to_nat partIdx = Some (mkPart (ms ++ [meas])) ->
  getNumChords partIdx start end_
    (set_parts (<[Z.to_nat partIdx := mkPart (ms ++ [meas'])]> (parts c)) c)
  = getNumChords partIdx start end_ c.
Proof.
  intros Hp Hs Hl.
  pose proof (lookup_lt_Some _ _ _ Hl) as Hlt.
  assert (Hl' : parts (set_parts
            (<[Z.to_nat partIdx := mkPart (ms ++ [meas'])]> (parts c)) c)
          !! Z.to_nat partIdx = Some (mkPart (ms ++ [meas']))).
  { simpl. apply list_lookup_insert_eq. exact Hlt. }
  destruct (Z_lt_dec start (size (ms ++ [meas]))) as [Hs'|Hs'];
    [destruct (Z_lt_dec end_ (size (ms ++ [meas]))) as [He|He]|].
  - rewrite (getNumChords_in_range _ _ _ _ _ Hp Hs Hl Hs' He).
    rewrite (getNumChords_in_range _ _ _ _ _ Hp Hs Hl');
      try (simpl; rewrite size_app_one in *; assumption).
    rewrite !measures_in_init; try assumption; [reflexivity|].
    rewrite size_app_one in *. exact He.
  - unfold getNumChords, at_index.
    rewrite (lookup_index_lt _ _ _ Hp Hl), (lookup_index_lt _ _ _ Hp Hl').
    rewrite Hl, Hl'. simpl. rewrite !size_app_one in *.
    replace (size ms + 1 <=? end_) with true
      by (symmetry; apply Z.leb_le; lia).
    rewrite !orb_true_r. reflexivity.
  - unfold getNumChords, at_index.
    rewrite (lookup_index_lt _ _ _ Hp Hl), (lookup_index_lt _ _ _ Hp Hl').
    rewrite Hl, Hl'. simpl. rewrite !size_app_one in *.
    replace (size ms + 1 <=? start) with true
      by (symmetry; apply Z.leb_le; lia).
    reflexivity.
Qed.

Lemma getNumChords_skips_last_measure_witness :
  getNumChords 0 0 1
    (set_parts
       (<[Z.to_nat 0 := mkPart ([mkMeasure [Examples.a4] 4] ++ [emptyMeasure])]>
          (parts Examples.two_measures)) Examples.two_measures)
  = getNumChords 0 0 1 Examples.two_measures.
Proof.
  apply (getNumChords_skips_last_measure Examples.two_measures
           [mkMeasure [Examples.a4] 4] (mkMeasure [Examples.a4] 4)
           emptyMeasure 0 0 1); reflexivity.
Defined.

(** ** Part selection *)

(** X4: [setPartIdx] followed by [getPartIdx]: an index below the number
    of parts is stored for the channel asked for and read back, the other
    channel, the parts and the measure range stay as they were; an index
    at or beyond the number of parts gives [BAD_IDX] and the same object. *)
Theorem setPartIdx_getPartIdx (chan : Channel) (partIdx : Z)
    (c : Composition) :
  (partIdx < size (parts c) ->
   fst (setPartIdx chan partIdx c) = NO_ERROR /\
   getPartIdx chan (snd (setPartIdx chan partIdx c)) = partIdx /\
   getPartIdx (other_channel chan) (snd (setPartIdx chan partIdx c))
   = getPartIdx (other_channel chan) c /\
   parts (snd (setPartIdx chan partIdx c)) = parts c /\
   getMeasStartIdx (snd (setPartIdx chan partIdx c)) = getMeasStartIdx c /\
   getMeasEndIdx (snd (setPartIdx chan partIdx c)) = getMeasEndIdx c) /\
  (size (parts c) <= partIdx -> setPartIdx chan partIdx c = (BAD_IDX, c)).
Proof.
  unfold setPartIdx. split; intros H.
  - apply Z.leb_gt in H. destruct chan; rewrite H; repeat split.
  - apply Z.leb_le in H. destruct chan; rewrite H; reflexivity.
Qed.

(** ** What a parse pass keeps *)

(** A property of the object that the cursor, the two stacks, the tempo
    and the divisions do not matter to, and that storing a note and
    adding measures keep, holds all along the loop of [parse]. *)
Section ParseInvariant.

Variable toUInt : string -> Z.
Variable toInt : string -> Z.
Variable P : Composition -> Prop.

Hypothesis P_cursor : forall c bs ps p, P c -> P (set_cursor bs ps p c).
Hypothesis P_bpm : forall c b, P c -> P (set_bpm b c).
Hypothesis P_divisions : forall c d, P c -> P (set_currDivisions d c).
Hypothesis P_storeNote :
  forall nf c code c', P c -> storeNote nf c = Ok (code, c') -> P c'.
Hypothesis P_addMeasures : forall c, P c -> P (addMeasures c).

Lemma closeBackup_keeps (c c' : Composition) :
  closeBackup c = Ok c' -> P c -> P c'.
Proof.
  unfold closeBackup. intros H Hc.
  destruct (backups c); [discriminate|].
  destruct (prevParts c); [discriminate|].
  injection H as <-. apply P_cursor, Hc.
Qed.

Lemma closeFinishedBackup_keeps (c c' : Composition) :
  closeFinishedBackup c = Ok c' -> P c -> P c'.
Proof.
  unfold closeFinishedBackup. intros H Hc.
  destruct (backups c) as [|top bs]; [injection H as <-; exact Hc|].
  destruct (top =? 0); [eapply closeBackup_keeps; eassumption|].
  injection H as <-. exact Hc.
Qed.

Lemma parseXmlNote_keeps (xml xml' : QXmlStreamReader)
    (c c' : Composition) code :
  parseXmlNote toUInt toInt xml c = Ok (code, xml', c') -> P c -> P c'.
Proof.
  unfold parseXmlNote. intros H Hc.
  destruct (negb (named "note" xml) || negb (is_start xml)).
  - injection H as <- <- <-. exact Hc.
  - bind_inv H. rename a into c1.
    apply closeFinishedBackup_keeps in E; [|exact Hc].
    bind_inv H. destruct a as [[code1 xml1] nf].
    case_bool_decide.
    + bind_inv H. destruct a as [code2 c2]. injection H as <- <- <-.
      eapply P_storeNote; [exact E | eassumption].
    + injection H as <- <- <-. exact E.
Qed.

Lemma parseXmlBackup_keeps (xml xml' : QXmlStreamReader)
    (c c' : Composition) code :
  parseXmlBackup toUInt xml c = Ok (code, xml', c') -> P c -> P c'.
Proof.
  unfold parseXmlBackup. intros H Hc.
  destruct (negb (named "backup" xml) || negb (is_start xml)).
  - injection H as <- <- <-. exact Hc.
  - bind_inv H. destruct a as [xml1 duration].
    destruct (duration =? 0); injection H as <- <- <-; [exact Hc|].
    apply P_cursor, Hc.
Qed.

Lemma drain_keeps (bs : list Z) :
  forall (c c' : Composition) code,
    drain bs c = Ok (code, c') -> P c -> P c'.
Proof.
  induction bs as [|top bs IH]; intros c c' code H Hc; simpl in H.
  - injection H as <- <-. exact Hc.
  - destruct (top =? 0).
    + bind_inv H. eapply IH; [exact H|].
      eapply closeBackup_keeps; eassumption.
    + injection H as <- <-. exact Hc.
Qed.

Lemma parse_turn_keeps (xml : QXmlStreamReader) (c : Composition)
    (t : Turn) :
  parse_turn toUInt toInt xml c = Ok t -> P c -> P (turn_object t).
Proof.
  unfold parse_turn, continue_if_ok, drainBackups. intros H Hc.
  repeat (case_bool_decide || case_match || simplify_eq/=); eauto.
  all: try (bind_inv H; repeat case_match; simplify_eq/=).
  all: repeat case_bool_decide; simplify_eq/=;
    eauto using parseXmlNote_keeps, parseXmlBackup_keeps, drain_keeps.
Qed.

Lemma parse_loop_keeps (fuel : nat) :
  forall (xml : QXmlStreamReader) (c c' : Composition) code,
    parse_loop toUInt toInt fuel xml c = Ok (code, c') -> P c -> P c'.
Proof.
  induction fuel as [|fuel IH]; intros xml c c' code H Hc; simpl in H.
  - discriminate.
  - bind_inv H. pose proof (parse_turn_keeps _ _ _ E Hc) as Ht.
    destruct a as [xml1 c1|code1 c1]; simpl in Ht.
    + eapply IH; eassumption.
    + injection H as <- <-. exact Ht.
Qed.

End ParseInvariant.

Lemma storeNote_configuration (nf : NoteFields) (c c' : Composition) code :
  storeNote nf c = Ok (code, c') -> same_configuration c c'.
Proof.
  unfold storeNote, same_configuration. intros H.
  bind_inv H. rename a into part. bind_inv H. rename a into meas.
  destruct (nf_isChord nf).
  - destruct (size (notes meas) <? 1).
    + injection H as <- <-. repeat split.
    + bind_inv H. bind_inv H. bind_inv H. injection H as <- <-.
      repeat split.
  - simpl in H. destruct (backups c) as [|top rest].
    + injection H as <- <-. repeat split.
    + destruct (top <? nf_raw_xml_duration nf);
        injection H as <- <-; repeat split.
Qed.

(** X5: [parse] leaves the channel and range configuration and the octave
    adjustment as they were, whatever the document and whether the file
    could be opened or not: the indices set before are not reset, and not
    checked against the new parts either. *)
Theorem parse_keeps_configuration (toUInt toInt : string -> Z)
    (file : option (list Token)) (c c' : Composition) (code : ErrorCode) :
  parse toUInt toInt file c = Ok (code, c') -> same_configuration c c'.
Proof.
  unfold parse. intros H. destruct file as [tokens|].
  - apply (parse_loop_keeps toUInt toInt (same_configuration c)) in H;
      try exact H; unfold same_configuration; try (intros; assumption).
    + intros c1 nf code1 c2 H1 H2. apply storeNote_configuration in H2.
      unfold same_configuration in H2. intuition congruence.
    + repeat split.
  - injection H as <- <-. repeat split.
Qed.

Lemma parse_keeps_configuration_witness :
  same_configuration (set_measEndIdx 7 (set_partIdxL 3 newComposition))
    (set_measEndIdx 7 (set_partIdxL 3 Timelines.two_voices)).
Proof.
  apply (parse_keeps_configuration Qt.toUInt Qt.toInt
           (Some Documents.two_voices)
           (set_measEndIdx 7 (set_partIdxL 3 newComposition))
           (set_measEndIdx 7 (set_partIdxL 3 Timelines.two_voices)) NO_ERROR).
  vm_compute. reflexivity.
Defined.

(** ** The timeline a parse pass builds *)

Lemma set_back_nonempty {A : Type} (x : A) (l : list A) :
  l <> [] -> set_back x l <> [].
Proof.
  unfold set_back. intros H E. apply (f_equal List.length) in E.
  rewrite length_insert in E. destruct l; [congruence | discriminate].
Qed.

Lemma last_elem_of {A : Type} (l : list A) (x : A) :
  last l = Some x -> x ∈ l.
Proof.
  intros H. apply last_Some in H. destruct H as [l' ->].
  apply elem_of_app. right. apply list_elem_of_singleton. reflexivity.
Qed.

(** Writing a sound measure back as the last measure of the part under
    the cursor keeps every part sound. *)
Lemma put_measure_sound (c : Composition) (part : Part) (meas m' : Measure) :
  Forall part_sound (parts c) ->
  at_index (if size (parts c) <=? currPart c then parts c ++ [emptyPart]
            else parts c) (currPart c) = Ok part ->
  last (if size (measures part) <? 1 then measures part ++ [emptyMeasure]
        else measures part) = Some meas ->
  measure_sound m' ->
  Forall part_sound
    (<[Z.to_nat (currPart c) :=
         mkPart (set_back m'
           (if size (measures part) <? 1
            then measures part ++ [emptyMeasure] else measures part))]>
       (if size (parts c) <=? currPart c then parts c ++ [emptyPart]
        else parts c)) /\
  measure_sound meas.
Proof.
  intros Hs Hp Hm Hm'. apply at_index_lookup in Hp.
  set (ms := if size (measures part) <? 1
             then measures part ++ [emptyMeasure] else measures part) in *.
  assert (Hpart : Forall measure_sound (measures part)).
  { destruct (size (parts c) <=? currPart c) eqn:E.
    - apply lookup_app_Some in Hp. destruct Hp as [Hp|[_ Hp]].
      + rewrite Forall_lookup in Hs. apply (Hs _ _ Hp).
      + apply list_lookup_singleton_Some in Hp. destruct Hp as [_ <-].
        constructor.
    - rewrite Forall_lookup in Hs. apply (Hs _ _ Hp). }
  assert (Hms : Forall measure_sound ms).
  { subst ms. destruct (size (measures part) <? 1); [|exact Hpart].
    apply Forall_app. split; [exact Hpart|].
    constructor; [constructor | constructor]. }
  assert (Hne : ms <> []) by (intros E; rewrite E in Hm; discriminate).
  split.
  - apply Forall_lookup. intros k x Hk.
    destruct (decide (k = Z.to_nat (currPart c))) as [->|Hneq].
    + rewrite list_lookup_insert_eq in Hk by (eapply lookup_lt_Some; eassumption).
      injection Hk as <-. split; simpl.
      * apply set_back_nonempty, Hne.
      * unfold set_back. apply Forall_insert; assumption.
    + rewrite list_lookup_insert_ne in Hk by congruence.
      destruct (size (parts c) <=? currPart c) eqn:E.
      * apply lookup_app_Some in Hk. destruct Hk as [Hk|[Hge Hk]].
        { rewrite Forall_lookup in Hs. apply (Hs _ _ Hk). }
        apply list_lookup_singleton_Some in Hk. destruct Hk as [Hk0 _].
        apply lookup_lt_Some in Hp. rewrite length_app in Hp. simpl in Hp.
        apply Z.leb_le in E. unfold size in E. lia.
      * rewrite Forall_lookup in Hs. apply (Hs _ _ Hk).
  - rewrite Forall_forall in Hms. apply Hms, last_elem_of, Hm.
Qed.

Lemma storeNote_sound (nf : NoteFields) (c c' : Composition) code :
  Forall part_sound (parts c) -> storeNote nf c = Ok (code, c') ->
  Forall part_sound (parts c').
Proof.
  unfold storeNote. intros Hs H.
  bind_inv H. rename a into part. bind_inv H. rename a into meas.
  assert (Hm : last (if size (measures part) <? 1
                     then measures part ++ [emptyMeasure]
                     else measures part) = Some meas).
  { destruct (last _); [simpl in E0; congruence | discriminate]. }
  assert (Hput : forall m', measure_sound m' ->
             Forall part_sound
               (<[Z.to_nat (currPart c) :=
                    mkPart (set_back m'
                      (if size (measures part) <? 1
                       then measures part ++ [emptyMeasure]
                       else measures part))]>
                  (if size (parts c) <=? currPart c
                   then parts c ++ [emptyPart] else parts c))).
  { intros m' Hm'. eapply put_measure_sound; eassumption. }
  assert (Hmeas : measure_sound meas).
  { destruct (put_measure_sound c part meas emptyMeasure Hs E Hm) as [_ Hx];
      [constructor | exact Hx]. }
  destruct (nf_isChord nf).
  - destruct (size (notes meas) <? 1).
    + injection H as <- <-. simpl. apply Hput, Hmeas.
    + bind_inv H. rename a into note. bind_inv H. bind_inv H.
      injection H as <- <-. simpl. apply Hput.
      unfold measure_sound, set_back. simpl.
      apply Forall_insert; [exact Hmeas|]. simpl.
      intros Hnil. apply app_eq_nil in Hnil. destruct Hnil; discriminate.
  - assert (Hnew : measure_sound
              (mkMeasure
                 (notes meas ++ [mkNote [nf_frequency nf] (nf_length nf)])
                 (wrap32 (xmlDurationSum meas + nf_raw_xml_duration nf)))).
    { unfold measure_sound. simpl. apply Forall_app. split; [exact Hmeas|].
      constructor; [simpl; discriminate | constructor]. }
    simpl in H. destruct (backups c) as [|top rest].
    + injection H as <- <-. simpl. apply Hput, Hnew.
    + destruct (top <? nf_raw_xml_duration nf);
        injection H as <- <-; simpl; apply Hput, Hnew.
Qed.

Lemma addMeasures_sound (c : Composition) :
  Forall part_sound (parts c) -> Forall part_sound (parts (addMeasures c)).
Proof.
  intros Hs. unfold addMeasures. simpl. apply Forall_lookup. intros i x Hi.
  rewrite list_lookup_imap in Hi.
  destruct (parts c !! i) as [part|] eqn:Hp; [|discriminate].
  simpl in Hi. injection Hi as <-.
  rewrite Forall_lookup in Hs. specialize (Hs _ _ Hp).
  destruct (currPart c <=? Z.of_nat i); [|exact Hs].
  destruct Hs as [Hne Hall]. split; simpl.
  - intros E. apply app_eq_nil in E. destruct E; discriminate.
  - apply Forall_app. split; [exact Hall|].
    constructor; [constructor | constructor].
Qed.

(** X6: whatever the document, and also when [parse] stops with an
    error, every part of the object it returns has at least one measure
    and every note in it holds at least one frequency. *)
Theorem parse_timeline_sound (toUInt toInt : string -> Z)
    (file : option (list Token)) (c c' : Composition) (code : ErrorCode) :
  parse toUInt toInt file c = Ok (code, c') -> Forall part_sound (parts c').
Proof.
  unfold parse. intros H. destruct file as [tokens|].
  - apply (parse_loop_keeps toUInt toInt
             (fun c => Forall part_sound (parts c))) in H;
      try exact H; try (intros; assumption).
    + intros nf c1 code1 c2 H1 H2. eapply storeNote_sound; eassumption.
    + apply addMeasures_sound.
    + constructor.
  - injection H as <- <-. constructor.
Qed.

Lemma parse_timeline_sound_witness :
  Forall part_sound (parts Timelines.two_voices).
Proof.
  apply (parse_timeline_sound Qt.toUInt Qt.toInt (Some Documents.two_voices)
           newComposition Timelines.two_voices NO_ERROR).
  vm_compute. reflexivity.
Defined.

(** ** Error codes of a parse pass *)

Section ParseCodes.

Variable toUInt : string -> Z.
Variable toInt : string -> Z.

Lemma pitchFrequency_code step alter octave freq code freq' :
  pitchFrequency step alter octave freq = Ok (code, freq') -> parse_code code.
Proof.
  unfold pitchFrequency, parse_code. intros H. bind_inv H. bind_inv H.
  destruct (step_offset step).
  - bind_inv H. injection H as <- <-. left. reflexivity.
  - injection H as <- <-. right. reflexivity.
Qed.

Lemma parseXmlPitch_code xml freq code xml' freq' :
  parseXmlPitch toInt xml freq = Ok (code, xml', freq') -> parse_code code.
Proof.
  unfold parseXmlPitch. intros H. case_match.
  - injection H as <- <- <-. right. reflexivity.
  - bind_inv H. destruct a as [xml1 [[step alter] octave]].
    bind_inv H. destruct a as [code1 f]. injection H as <- <- <-.
    eapply pitchFrequency_code. eassumption.
Qed.

Lemma note_children_code (n : nat) :
  forall divisions xml nf code xml' nf',
    note_children toUInt toInt n divisions xml nf = Ok (code, xml', nf') ->
    parse_code code.
Proof.
  induction n as [|n IH]; intros divisions xml nf code xml' nf' H;
    [discriminate|].
  simpl in H. repeat case_match; simplify_eq; try (left; reflexivity);
    try (eapply IH; eassumption).
  bind_inv H. destruct a as [[code1 xml1] frequency].
  apply parseXmlPitch_code in E.
  case_bool_decide; [eapply IH; eassumption | simplify_eq; exact E].
Qed.

Lemma storeNote_code nf c code c' :
  storeNote nf c = Ok (code, c') -> parse_code code.
Proof.
  unfold storeNote, parse_code. intros H.
  bind_inv H. bind_inv H. destruct (nf_isChord nf).
  - destruct (size (notes a0) <? 1).
    + injection H as <- <-. right. reflexivity.
    + bind_inv H. bind_inv H. bind_inv H. injection H as <- <-.
      left. reflexivity.
  - simpl in H. destruct (backups c) as [|top rest].
    + injection H as <- <-. left. reflexivity.
    + destruct (top <? nf_raw_xml_duration nf); injection H as <- <-;
        [right | left]; reflexivity.
Qed.

Lemma parseXmlNote_code xml c code xml' c' :
  parseXmlNote toUInt toInt xml c = Ok (code, xml', c') -> parse_code code.
Proof.
  unfold parseXmlNote. intros H. case_match.
  - injection H as <- <- <-. right. reflexivity.
  - bind_inv H. bind_inv H. destruct a0 as [[code1 xml1] nf].
    apply note_children_code in E0. case_bool_decide.
    + bind_inv H. destruct a0 as [code2 c2]. injection H as <- <- <-.
      eapply storeNote_code. eassumption.
    + injection H as <- <- <-. exact E0.
Qed.

Lemma parseXmlBackup_code xml c code xml' c' :
  parseXmlBackup toUInt xml c = Ok (code, xml', c') -> parse_code code.
Proof.
  unfold parseXmlBackup, parse_code. intros H. case_match.
  - injection H as <- <- <-. right. reflexivity.
  - bind_inv H. destruct a as [xml1 duration].
    destruct (duration =? 0); injection H as <- <- <-;
      [right | left]; reflexivity.
Qed.

Lemma drain_code (bs : list Z) :
  forall c code c', drain bs c = Ok (code, c') -> parse_code code.
Proof.
  induction bs as [|top bs IH]; intros c code c' H; simpl in H.
  - injection H as <- <-. left. reflexivity.
  - destruct (top =? 0).
    + bind_inv H. eapply IH. eassumption.
    + injection H as <- <-. right. reflexivity.
Qed.

Lemma parse_turn_code xml c code c' :
  parse_turn toUInt toInt xml c = Ok (Return code c') -> parse_code code.
Proof.
  unfold parse_turn, continue_if_ok, drainBackups. intros H.
  repeat (case_bool_decide || case_match || simplify_eq/=);
    try (left; reflexivity).
  all: bind_inv H; repeat case_match; simplify_eq/=.
  all: repeat case_bool_decide; simplify_eq/=.
  all: eauto using parseXmlNote_code, parseXmlBackup_code, drain_code.
Qed.

Lemma parse_loop_code (fuel : nat) :
  forall xml c code c',
    parse_loop toUInt toInt fuel xml c = Ok (code, c') -> parse_code code.
Proof.
  induction fuel as [|fuel IH]; intros xml c code c' H; simpl in H.
  - discriminate.
  - bind_inv H. destruct a as [xml1 c1|code1 c1].
    + eapply IH. eassumption.
    + injection H as <- <-. eapply parse_turn_code. eassumption.
Qed.

End ParseCodes.

(** X7: on a file that could be opened [parse] returns [NO_ERROR] or
    [XML_PARSE] and no other code: every failure of the pitch, note and
    backup handlers and of the checks at a measure start and a part end
    comes out as the one code [XML_PARSE]. *)
Theorem parse_error_codes (toUInt toInt : string -> Z)
    (tokens : list Token) (c c' : Composition) (code : ErrorCode) :
  parse toUInt toInt (Some tokens) c = Ok (code, c') ->
  code = NO_ERROR \/ code = XML_PARSE.
Proof.
  unfold parse. intros H. eapply parse_loop_code. eassumption.
Qed.

Lemma parse_error_codes_witness : NO_ERROR = NO_ERROR \/ NO_ERROR = XML_PARSE.
Proof.
  apply (parse_error_codes Qt.toUInt Qt.toInt Documents.two_voices
           newComposition Timelines.two_voices NO_ERROR).
  vm_compute. reflexivity.
Defined.

(** ** Tokens the loop passes over *)

Section PassOver.

Variable toUInt : string -> Z.
Variable toInt : string -> Z.

Lemma parse_turn_pass_over (cur t : Token) (ts : list Token)
    (c : Composition) :
  passed_over t = true ->
  parse_turn toUInt toInt (mkReader cur (t :: ts)) c
  = Ok (Continue (mkReader t ts) c).
Proof.
  unfold passed_over, parse_turn, readNext, is_start, named. simpl.
  destruct t as [ty n tx]. simpl. intros H.
  destruct ty; simpl; try reflexivity; try discriminate.
  - apply negb_true_iff in H. repeat (apply orb_false_iff in H as [H ?]).
    repeat match goal with E : String.eqb _ _ = false |- _ => rewrite E end.
    reflexivity.
  - apply negb_true_iff in H. rewrite H. reflexivity.
Qed.

Lemma parse_loop_pass_over (pre : list Token) :
  forall (cur : Token) (ts : list Token) (c : Composition) (n : nat),
    forallb passed_over pre = true ->
    exists cur',
      parse_loop toUInt toInt (List.length pre + n) (mkReader cur (pre ++ ts)) c
      = parse_loop toUInt toInt n (mkReader cur' ts) c.
Proof.
  induction pre as [|t pre IH]; intros cur ts c n H.
  - exists cur. reflexivity.
  - simpl in H. apply andb_true_iff in H. destruct H as [Ht Hpre].
    destruct (IH t ts c n Hpre) as [cur' Hcur'].
    exists cur'. simpl. rewrite parse_turn_pass_over by exact Ht.
    simpl. exact Hcur'.
Qed.

Lemma parse_loop_current (n : nat) (cur cur' : Token) (ts : list Token)
    (c : Composition) :
  parse_loop toUInt toInt n (mkReader cur ts) c
  = parse_loop toUInt toInt n (mkReader cur' ts) c.
Proof. destruct n; reflexivity. Qed.

(** The object [parse] starts its loop with. *)
Lemma parse_skip (pre ts : list Token) (c : Composition) :
  forallb passed_over pre = true ->
  parse toUInt toInt (Some (pre ++ ts)) c = parse toUInt toInt (Some ts) c.
Proof.
  intros H. unfold parse, setDevice, tokens_left.
  cbn [pending]. rewrite length_app.
  replace (S (List.length pre + List.length ts))
    with (List.length pre + S (List.length ts))%nat by lia.
  destruct (parse_loop_pass_over pre (mkToken NoToken "" "") ts
              (set_currPart 0 (set_parts [] c)) (S (List.length ts)) H)
    as [cur' Hcur']. rewrite Hcur'.
  apply parse_loop_current.
Qed.

End PassOver.

(** X8: tokens the loop of [parse] has no case for (start tags other
    than note, backup, measure, per-minute and divisions, end tags other
    than part, text, comments and the like) at the head of a document do
    not change the result of [parse]. *)
Theorem parse_skips_unknown_tokens (toUInt toInt : string -> Z)
    (pre ts : list Token) (c : Composition) :
  forallb passed_over pre = true ->
  parse toUInt toInt (Some (pre ++ ts)) c = parse toUInt toInt (Some ts) c.
Proof.
  intros H. unfold parse, setDevice, tokens_left.
  cbn [pending]. rewrite length_app.
  replace (S (List.length pre + List.length ts))
    with (List.length pre + S (List.length ts))%nat by lia.
  destruct (parse_loop_pass_over toUInt toInt pre (mkToken NoToken "" "") ts
              (set_currPart 0 (set_parts [] c)) (S (List.length ts)) H)
    as [cur' Hcur']. rewrite Hcur'.
  apply parse_loop_current.
Qed.

Lemma parse_skips_unknown_tokens_witness :
  parse Qt.toUInt Qt.toInt
    (Some ([Examples.open_tag "score-partwise"; Examples.chars "x";
            Examples.close_tag "work"] ++ Documents.two_voices))
    newComposition
  = parse Qt.toUInt Qt.toInt (Some Documents.two_voices) newComposition.
Proof.
  apply (parse_skips_unknown_tokens Qt.toUInt Qt.toInt
           [Examples.open_tag "score-partwise"; Examples.chars "x";
            Examples.close_tag "work"] Documents.two_voices newComposition).
  reflexivity.
Defined.

(** X9: [parse] clears the parts and the cursor but not the two stacks.
    An object whose backup stack still has a non-zero counter on top (as
    an earlier pass that stopped inside a backup scope leaves it) makes
    the next pass fail with [XML_PARSE] at the first measure start tag of
    the document, before any part is built. *)
Theorem parse_stale_backup (toUInt toInt : string -> Z)
    (pre ts : list Token) (t : Token) (c : Composition)
    (top : Z) (rest : list Z) :
  backups c = top :: rest -> top <> 0 ->
  forallb passed_over pre = true ->
  tokenType t = StartElement -> name t = "measure" ->
  parse toUInt toInt (Some (pre ++ t :: ts)) c
  = Ok (XML_PARSE, set_currPart 0 (set_parts [] c)).
Proof.
  intros Hb Htop Hpre Hty Hname.
  rewrite (parse_skip toUInt toInt pre (t :: ts) c Hpre).
  unfold parse, setDevice, tokens_left. simpl.
  unfold parse_turn, readNext, is_start, named. simpl.
  rewrite Hty, Hname. simpl.
  rewrite (drainBackups_unresolved (set_currPart 0 (set_parts [] c)) top rest)
    by assumption.
  reflexivity.
Qed.

Lemma parse_stale_backup_witness :
  parse Qt.toUInt Qt.toInt
    (Some ([Examples.open_tag "part"] ++
           Examples.open_tag "measure" :: tl (tl Documents.two_voices)))
    (openBackup 4 newComposition)
  = Ok (XML_PARSE, set_currPart 0 (set_parts [] (openBackup 4 newComposition))).
Proof.
  apply (parse_stale_backup Qt.toUInt Qt.toInt [Examples.open_tag "part"]
           (tl (tl Documents.two_voices)) (Examples.open_tag "measure")
           (openBackup 4 newComposition) 4 []);
    try reflexivity.
  discriminate.
Defined.

(** ** Closing backup scopes *)

Lemma set_cursor_same (c : Composition) :
  set_cursor (backups c) (prevParts c) (currPart c) c = c.
Proof. destruct c. reflexivity. Qed.

Lemma drain_zeros (zeros : list Z) :
  forall (c : Composition) (tail : list Z),
    Forall (fun b => b = 0) zeros ->
    backups c = zeros ++ tail ->
    (List.length zeros <= List.length (prevParts c))%nat ->
    match tail with
    | [] => True
    | top :: _ => top <> 0
    end ->
    drain (backups c) c
    = Ok (match tail with [] => NO_ERROR | _ :: _ => XML_PARSE end,
          set_cursor tail (drop (List.length zeros) (prevParts c))
            (default (currPart c)
               (last (take (List.length zeros) (prevParts c)))) c).
Proof.
  induction zeros as [|z zeros IH]; intros c tail Hz Hb Hlen Htail.
  - simpl in *. rewrite drop_0. rewrite Hb.
    destruct tail as [|top tail'].
    + simpl. rewrite <- Hb, set_cursor_same. reflexivity.
    + simpl. apply Z.eqb_neq in Htail. rewrite Htail.
      rewrite <- Hb, set_cursor_same. reflexivity.
  - inversion Hz as [|? ? Hz0 Hzs]; subst.
    rewrite Hb. simpl. unfold closeBackup. rewrite Hb. simpl.
    destruct (prevParts c) as [|p ps] eqn:Ep; [simpl in Hlen; lia|].
    simpl.
    specialize (IH (set_cursor (zeros ++ tail) ps p c) tail Hzs eq_refl).
    simpl in IH. simpl in Hlen.
    rewrite IH by (assumption || lia).
    f_equal. f_equal. unfold set_cursor. simpl. f_equal.
    destruct zeros as [|z' zeros']; [reflexivity|].
    destruct ps as [|p' ps']; [simpl in Hlen; lia|]. simpl.
    destruct (last (p' :: take (List.length zeros') ps')) eqn:El;
      [reflexivity|].
    apply last_None in El. discriminate.
Qed.

(** X10: the check made at a measure start and at a part end.  With
    stacks of equal depth, [drainBackups] closes the scopes whose counter
    is 0 from the top down.  When all counters are 0 it returns
    [NO_ERROR] with both stacks empty and the cursor back at the part the
    outermost scope was opened from; when it meets a counter that is not
    0 it returns [XML_PARSE] with that counter on top of the backup stack
    and as many part-restore entries as counters left. *)
Theorem drainBackups_closes_zero_scopes (c : Composition)
    (zeros tail : list Z) :
  stacks_balanced c ->
  backups c = zeros ++ tail ->
  Forall (fun b => b = 0) zeros ->
  match tail with [] => True | top :: _ => top <> 0 end ->
  exists c',
    drainBackups c
    = Ok (match tail with [] => NO_ERROR | _ :: _ => XML_PARSE end, c') /\
    backups c' = tail /\
    List.length (prevParts c') = List.length tail /\
    currPart c' = default (currPart c)
                    (last (take (List.length zeros) (prevParts c))) /\
    parts c' = parts c.
Proof.
  intros B Hb Hz Htail. unfold stacks_balanced in B.
  rewrite Hb, length_app in B.
  eexists. split.
  - unfold drainBackups. apply drain_zeros; try eassumption. lia.
  - simpl. repeat split. rewrite length_drop. lia.
Qed.

Lemma drainBackups_closes_zero_scopes_witness :
  exists c',
    drainBackups (set_cursor [0; 0] [1; 0] 2 Timelines.two_voices)
    = Ok (NO_ERROR, c') /\
    backups c' = [] /\
    List.length (prevParts c') = List.length (@nil Z) /\
    currPart c' = default 2 (last (take 2 [1; 0])) /\
    parts c' = parts Timelines.two_voices.
Proof.
  apply (drainBackups_closes_zero_scopes
           (set_cursor [0; 0] [1; 0] 2 Timelines.two_voices) [0; 0] []);
    try reflexivity; repeat constructor.
Defined.

(** ** Notes against a backup scope *)

Lemma raw_sum_nonneg (nfs : list NoteFields) :
  Forall plain_note nfs -> 0 <= raw_sum nfs.
Proof.
  induction 1 as [|nf nfs [_ H] _ IH]; unfold raw_sum in *; simpl; lia.
Qed.

Lemma raw_sum_app (nfs1 nfs2 : list NoteFields) :
  raw_sum (nfs1 ++ nfs2) = raw_sum nfs1 + raw_sum nfs2.
Proof.
  induction nfs1 as [|nf nfs1 IH]; unfold raw_sum in *; simpl; lia.
Qed.

(** [storeNote] leaves the cursor where it is and never removes a part. *)
Lemma storeNote_cursor (nf : NoteFields) (c c' : Composition) code :
  storeNote nf c = Ok (code, c') ->
  currPart c' = currPart c /\ size (parts c) <= size (parts c').
Proof.
  unfold storeNote. intros H.
  bind_inv H. rename a into part. bind_inv H. rename a into meas.
  assert (Hsz : forall x,
             size (parts c)
             <= size (<[Z.to_nat (currPart c) := x]>
                        (if size (parts c) <=? currPart c
                         then parts c ++ [emptyPart] else parts c))).
  { intros x. unfold size at 2. rewrite length_insert.
    destruct (size (parts c) <=? currPart c).
    - rewrite length_app. unfold size. simpl. lia.
    - unfold size. lia. }
  destruct (nf_isChord nf).
  - destruct (size (notes meas) <? 1).
    + injection H as <- <-. split; [reflexivity | apply Hsz].
    + bind_inv H. bind_inv H. bind_inv H. injection H as <- <-.
      split; [reflexivity | apply Hsz].
  - simpl in H. destruct (backups c) as [|top rest].
    + injection H as <- <-. split; [reflexivity | apply Hsz].
    + destruct (top <? nf_raw_xml_duration nf);
        injection H as <- <-; (split; [reflexivity | apply Hsz]).
Qed.

(** With a counter above 0 on top the check on entry does nothing. *)
Lemma closeFinishedBackup_open (c : Composition) (top : Z) (rest : list Z) :
  backups c = top :: rest -> 0 < top -> closeFinishedBackup c = Ok c.
Proof.
  intros Hb Ht. unfold closeFinishedBackup. rewrite Hb.
  replace (top =? 0) with false by (symmetry; apply Z.eqb_neq; lia).
  reflexivity.
Qed.

Lemma storeNotes_consume (nfs : list NoteFields) :
  forall (c : Composition) (top : Z) (rest : list Z),
    Forall plain_note nfs ->
    0 <= currPart c <= size (parts c) ->
    backups c = top :: rest -> is_uint32 top ->
    raw_sum nfs <= top ->
    exists c',
      storeNotes nfs c = Ok (NO_ERROR, c') /\
      backups c' = (top - raw_sum nfs) :: rest /\
      prevParts c' = prevParts c /\ currPart c' = currPart c /\
      size (parts c) <= size (parts c').
Proof.
  induction nfs as [|nf nfs IH]; intros c top rest Hall Hr Hb Ht Hle.
  - exists c. unfold raw_sum. simpl. rewrite Z.sub_0_r.
    repeat split; try assumption. lia.
  - inversion Hall as [|? ? [Hch Hraw] Hall']; subst.
    pose proof (raw_sum_nonneg nfs Hall') as Hsum.
    change (raw_sum (nf :: nfs))
      with (nf_raw_xml_duration nf + raw_sum nfs) in *.
    destruct (storeNote_charges_backup nf c top rest Hch Hr Hb)
      as (c1 & H1 & Hb1 & Hp1 & _).
    pose proof (storeNote_cursor _ _ _ _ H1) as [Hc1 Hs1].
    simpl. rewrite (closeFinishedBackup_open c top rest Hb) by lia.
    rewrite bind_Ok_l, H1, bind_Ok_l.
    replace (top <? nf_raw_xml_duration nf) with false in *
      by (symmetry; apply Z.ltb_ge; lia).
    simpl.
    rewrite wrap32_small in Hb1 by (unfold is_uint32 in *; lia).
    assert (Hr1 : 0 <= currPart c1 <= size (parts c1)) by lia.
    assert (Ht1 : is_uint32 (top - nf_raw_xml_duration nf))
      by (unfold is_uint32 in *; lia).
    destruct (IH c1 _ rest Hall' Hr1 Hb1 Ht1) as (c' & H' & Hb' & Hp' & Hc' & Hs');
      [lia|].
    exists c'. split; [exact H'|]. split.
    { rewrite Hb'. f_equal. lia. }
    repeat split; try congruence. lia.
Qed.

Lemma storeNotes_app (nfs1 : list NoteFields) :
  forall (nfs2 : list NoteFields) (c c1 : Composition),
    storeNotes nfs1 c = Ok (NO_ERROR, c1) ->
    storeNotes (nfs1 ++ nfs2) c = storeNotes nfs2 c1.
Proof.
  induction nfs1 as [|nf nfs1 IH]; intros nfs2 c c1 H; simpl in *.
  - injection H as <-. reflexivity.
  - bind_inv H. rewrite E, bind_Ok_l. bind_inv H. rewrite E0, bind_Ok_l.
    destruct a0 as [code c2]. case_bool_decide; [|congruence].
    apply IH. exact H.
Qed.

(** X11: notes without the chord marker and with raw durations above 0,
    handled one after the other while a backup scope with counter [top]
    is open.  As long as their raw durations add up to at most [top] they
    are all accepted and the counter is [top] minus that sum, the cursor
    and the rest of both stacks as they were; a further note that takes
    the sum from below [top] to above it is refused with [XML_PARSE]. *)
Theorem notes_consume_backup (nfs : list NoteFields) (nf : NoteFields)
    (c : Composition) (top : Z) (rest : list Z) :
  Forall plain_note nfs -> plain_note nf ->
  0 <= currPart c <= size (parts c) ->
  backups c = top :: rest -> is_uint32 top ->
  (raw_sum nfs <= top ->
   exists c',
     storeNotes nfs c = Ok (NO_ERROR, c') /\
     backups c' = (top - raw_sum nfs) :: rest /\
     prevParts c' = prevParts c /\ currPart c' = currPart c) /\
  (raw_sum nfs < top -> top < raw_sum nfs + nf_raw_xml_duration nf ->
   exists c', storeNotes (nfs ++ [nf]) c = Ok (XML_PARSE, c')).
Proof.
  intros Hall Hnf Hr Hb Ht. split.
  - intros Hle.
    destruct (storeNotes_consume nfs c top rest Hall Hr Hb Ht Hle)
      as (c' & H & Hb' & Hp' & Hc' & _).
    exists c'. repeat split; assumption.
  - intros Hlt Hgt.
    destruct (storeNotes_consume nfs c top rest Hall Hr Hb Ht)
      as (c1 & H1 & Hb1 & Hp1 & Hc1 & Hs1); [lia|].
    rewrite (storeNotes_app nfs [nf] c c1 H1). simpl.
    rewrite (closeFinishedBackup_open c1 _ rest Hb1) by lia.
    rewrite bind_Ok_l.
    destruct Hnf as [Hch Hraw].
    destruct (storeNote_charges_backup nf c1 _ rest Hch ltac:(lia) Hb1)
      as (c2 & H2 & _).
    rewrite H2, bind_Ok_l.
    replace (top - raw_sum nfs <? nf_raw_xml_duration nf) with true
      by (symmetry; apply Z.ltb_lt; lia).
    simpl. exists c2. reflexivity.
Qed.

Lemma notes_consume_backup_witness :
  exists c',
    storeNotes ([BackupExample.short_fields] ++ [BackupExample.short_fields])
      BackupExample.in_backup = Ok (XML_PARSE, c').
Proof.
  apply (proj2 (notes_consume_backup
                  [BackupExample.short_fields] BackupExample.short_fields
                  BackupExample.in_backup 4 []
                  ltac:(repeat constructor)
                  (conj eq_refl eq_refl)
                  (conj Z.le_0_1 (Z.le_refl 1)) eq_refl
                  (conj (Z.lt_le_incl 0 4 eq_refl) eq_refl)));
    reflexivity.
Defined.

(** X12: a backup scope and the notes that fill it.  After
    [backups.push(d); prevParts.push(currPart); currPart++], notes
    without the chord marker and with raw durations above 0 that add up
    to exactly [d] are all accepted and leave the counter at 0; the check
    on entry of the next note then closes the scope, and the cursor and
    both stacks are what they were before the backup. *)
Theorem backup_scope_restores_cursor (nfs : list NoteFields)
    (c : Composition) (d : Z) :
  Forall plain_note nfs ->
  0 <= currPart c < size (parts c) -> is_uint32 (currPart c + 1) ->
  is_uint32 d -> raw_sum nfs = d ->
  exists c2 c3,
    storeNotes nfs (openBackup d c) = Ok (NO_ERROR, c2) /\
    backups c2 = 0 :: backups c /\
    closeFinishedBackup c2 = Ok c3 /\
    currPart c3 = currPart c /\ backups c3 = backups c /\
    prevParts c3 = prevParts c.
Proof.
  intros Hall Hr Hw Hd Hsum.
  assert (Hr1 : 0 <= currPart (openBackup d c) <= size (parts (openBackup d c))).
  { simpl. rewrite wrap32_small by exact Hw. lia. }
  destruct (storeNotes_consume nfs (openBackup d c) d (backups c) Hall Hr1
              eq_refl Hd) as (c2 & H2 & Hb2 & Hp2 & Hc2 & _); [lia|].
  rewrite Hsum, Z.sub_diag in Hb2.
  exists c2, (set_cursor (backups c) (prevParts c) (currPart c) c2).
  split; [exact H2|]. split; [exact Hb2|]. split.
  - unfold closeFinishedBackup, closeBackup. rewrite Hb2, Hp2. reflexivity.
  - repeat split.
Qed.

Lemma backup_scope_restores_cursor_witness :
  exists c2 c3,
    storeNotes [BackupExample.short_fields]
      (openBackup 3 ChordExample.after_a4) = Ok (NO_ERROR, c2) /\
    backups c2 = 0 :: backups ChordExample.after_a4 /\
    closeFinishedBackup c2 = Ok c3 /\
    currPart c3 = currPart ChordExample.after_a4 /\
    backups c3 = backups ChordExample.after_a4 /\
    prevParts c3 = prevParts ChordExample.after_a4.
Proof.
  apply (backup_scope_restores_cursor [BackupExample.short_fields]
           ChordExample.after_a4 3
           ltac:(repeat constructor)
           (conj (Z.le_refl 0) eq_refl)
           (conj (Z.lt_le_incl 0 1 eq_refl) eq_refl)
           (conj (Z.lt_le_incl 0 3 eq_refl) eq_refl) eq_refl).
Defined.

(** ** Chords and measure boundaries *)

Lemma currentNotes_addMeasures (c : Composition) :
  0 <= currPart c -> currentNotes (addMeasures c) = [].
Proof.
  intros H. unfold currentNotes, addMeasures. simpl.
  rewrite list_lookup_imap.
  destruct (parts c !! Z.to_nat (currPart c)) as [part|]; [|reflexivity].
  simpl. replace (currPart c <=? Z.of_nat (Z.to_nat (currPart c))) with true
    by (symmetry; apply Z.leb_le; lia).
  simpl. rewrite last_snoc. reflexivity.
Qed.

(** X13: a chord member cannot join a note of an earlier measure.  After
    the new measures of a measure start are added, a note element with
    the chord marker is refused with [XML_PARSE], whatever the measures
    before hold. *)
Theorem chord_after_measure_start_refused (nf : NoteFields)
    (c : Composition) :
  nf_isChord nf = true ->
  0 <= currPart c <= size (parts c) ->
  exists c', storeNote nf (addMeasures c) = Ok (XML_PARSE, c').
Proof.
  intros Hch Hr. apply storeNote_chord_no_note; [exact Hch | |].
  - unfold addMeasures, size. simpl. rewrite length_imap. exact Hr.
  - apply currentNotes_addMeasures. lia.
Qed.

Lemma chord_after_measure_start_refused_witness :
  exists c',
    storeNote ChordExample.chord_fields (addMeasures ChordExample.after_a4)
    = Ok (XML_PARSE, c').
Proof.
  apply (chord_after_measure_start_refused ChordExample.chord_fields
           ChordExample.after_a4 eq_refl (conj (Z.le_refl 0) Z.le_0_1)).
Defined.

(** ** What a download sends *)

Lemma notes_in_cons (meas : Measure) (ms : list Measure) :
  notes_in (meas :: ms) = notes meas ++ notes_in ms.
Proof. reflexivity. Qed.


Lemma next_cnt_app (ns1 ns2 : list Note) (cnt : Z) :
  next_cnt cnt (ns1 ++ ns2) = next_cnt (next_cnt cnt ns1) ns2.
Proof. unfold next_cnt. apply fold_left_app. Qed.









(** ** A transport that fails *)

Lemma serial_send_accept_first (k : nat) (log : list string)
    (cmd resp : string) :
  serial_send nat Examples.accept_first (k, log) cmd resp
  = match k with
    | O => (SERIAL_ERROR 1, (O, log ++ [cmd]))
    | S n => (SERIAL_NO_ERROR, (n, log ++ [cmd]))
    end.
Proof. destruct k; reflexivity. Qed.

Lemma download_notes_accept_first (c : Composition) (j : Z)
    (ns : list Note) :
  forall (cnt : Z) (k : nat) (log : list string) code cnt' k' log',
    download_notes nat Examples.accept_first c j ns cnt (k, log)
    = Ok (code, cnt', (k', log')) ->
    ((2 * List.length ns <= k)%nat ->
     code = NO_ERROR /\ k' = (k - 2 * List.length ns)%nat /\
     List.length log' = (List.length log + 2 * List.length ns)%nat) /\
    ((k < 2 * List.length ns)%nat ->
     code = CMD_ERR /\ List.length log' = (List.length log + k + 1)%nat).
Proof.
  induction ns as [|note ns IH]; intros cnt k log code cnt' k' log' H;
    simpl in H.
  - injection H as <- <- <- <-. simpl. split; [|lia].
    intros _. repeat split; lia.
  - bind_inv H. rename a into cmdR.
    rewrite serial_send_accept_first in H.
    destruct k as [|k].
    + simpl in H. injection H as <- <- <- <-. split; [simpl; lia|].
      intros _. split; [reflexivity|]. rewrite length_app. simpl. lia.
    + rewrite bool_decide_eq_true_2 in H by reflexivity.
      bind_inv H. rename a into cmdL.
      rewrite serial_send_accept_first in H.
      destruct k as [|k].
      * simpl in H. injection H as <- <- <- <-. split; [simpl; lia|].
        intros _. split; [reflexivity|]. rewrite !length_app. simpl. lia.
      * rewrite bool_decide_eq_true_2 in H by reflexivity.
        apply IH in H. destruct H as [H1 H2].
        rewrite !length_app in H1, H2. simpl in *. split.
        { intros Hle. destruct H1 as (-> & -> & Hl); [lia|].
          repeat split; lia. }
        intros Hlt. destruct H2 as (-> & Hl); [lia|].
        split; [reflexivity | lia].
Qed.

Lemma download_measures_accept_first (c : Composition) (j : Z)
    (ms : list Measure) :
  forall (cnt : Z) (k : nat) (log : list string) code cnt' k' log',
    download_measures nat Examples.accept_first c j ms cnt (k, log)
    = Ok (code, cnt', (k', log')) ->
    ((2 * List.length (notes_in ms) <= k)%nat ->
     code = NO_ERROR /\
     List.length log' = (List.length log + 2 * List.length (notes_in ms))%nat)
    /\
    ((k < 2 * List.length (notes_in ms))%nat ->
     code = CMD_ERR /\ List.length log' = (List.length log + k + 1)%nat).
Proof.
  induction ms as [|meas ms IH]; intros cnt k log code cnt' k' log' H;
    simpl in H.
  - injection H as <- <- <- <-. unfold notes_in. simpl. split; [|lia].
    intros _. split; [reflexivity | lia].
  - bind_inv H. destruct a as [[code1 cnt1] [k1 log1]].
    apply download_notes_accept_first in E. destruct E as [E1 E2].
    rewrite notes_in_cons, length_app.
    destruct (le_lt_dec (2 * List.length (notes meas)) k) as [Hle|Hlt].
    + destruct (E1 Hle) as (-> & -> & Hl1).
      rewrite bool_decide_eq_true_2 in H by reflexivity.
      apply IH in H. destruct H as [H1 H2]. split.
      * intros Hle'. destruct H1 as (-> & Hl); [lia|].
        split; [reflexivity | lia].
      * intros Hlt'. destruct H2 as (-> & Hl); [lia|].
        split; [reflexivity | lia].
    + destruct (E2 Hlt) as (-> & Hl1).
      rewrite bool_decide_eq_false_2 in H by discriminate.
      injection H as <- <- <- <-. split; [lia|].
      intros _. split; [reflexivity | exact Hl1].
Qed.

Lemma prefix_is_take {A : Type} (l1 l2 : list A) :
  l1 `prefix_of` l2 -> l1 = take (List.length l1) l2.
Proof.
  intros [k ->]. rewrite take_app_length. reflexivity.
Qed.

(** X15: a transport that accepts [k] commands and fails on the next one.
    On a composition with parts, when [k] is less than the 1 + 2 * notes
    commands of a whole download, [download] returns [CMD_ERR] and has
    sent exactly the first [k + 1] of them, the refused command being the
    last; otherwise it returns [NO_ERROR] and has sent them all. *)
Theorem download_stops_at_first_failure (c : Composition) (part : Part)
    (ps : list Part) (jingleIdx : Z) (k k' : nat) (code : ErrorCode)
    (sent : list string) :
  parts c = part :: ps ->
  download nat Examples.accept_first c (k, []) jingleIdx
  = Ok (code, (k', sent)) ->
  ((k < 1 + 2 * List.length (notes_in (measures part)))%nat ->
   code = CMD_ERR /\
   Ok <$> sent = take (S k) (download_cmds c jingleIdx)) /\
  ((1 + 2 * List.length (notes_in (measures part)) <= k)%nat ->
   code = NO_ERROR /\ Ok <$> sent = download_cmds c jingleIdx).
Proof.
  intros Hp H.
  pose proof (download_sent Examples.accept_first c jingleIdx (k, []) code
                (k', sent) H) as (t & Ht & Hpre & Hall).
  simpl in Ht. subst t.
  assert (Hlen :
    ((k < 1 + 2 * List.length (notes_in (measures part)))%nat ->
     code = CMD_ERR /\ List.length sent = S k) /\
    ((1 + 2 * List.length (notes_in (measures part)) <= k)%nat ->
     code = NO_ERROR)).
  { unfold download in H. rewrite Hp in H.
    replace (size (part :: ps) <=? 0) with false in H
      by (symmetry; apply Z.leb_gt; unfold size; simpl; lia).
    simpl in H. rewrite serial_send_accept_first in H.
    destruct k as [|k].
    - simpl in H. injection H as <- <- <-. split; [|lia].
      intros _. split; reflexivity.
    - rewrite bool_decide_eq_true_2 in H by reflexivity.
      bind_inv H. destruct a as [[code1 cnt1] [k1 log1]].
      injection H as <- <- <-.
      apply download_measures_accept_first in E. destruct E as [E1 E2].
      simpl in E1, E2. split.
      + intros Hlt. destruct E2 as (-> & Hl); [lia|].
        split; [reflexivity | lia].
      + intros Hle. destruct E1 as (-> & Hl); [lia|]. reflexivity. }
  destruct Hlen as [L1 L2]. split.
  - intros Hlt. destruct (L1 Hlt) as [-> Hl]. split; [reflexivity|].
    rewrite (prefix_is_take _ _ Hpre), length_fmap, Hl. reflexivity.
  - intros Hle. rewrite (L2 Hle) in *. split; [reflexivity|].
    apply Hall. reflexivity.
Qed.

Lemma download_stops_at_first_failure_witness :
  CMD_ERR = CMD_ERR /\
  Ok <$> take 3 Timelines.two_measures_cmds
  = take 3 (download_cmds Examples.two_measures 5).
Proof.
  apply (proj1 (download_stops_at_first_failure Examples.two_measures
                  Timelines.two_measures_part [] 5 2 0 CMD_ERR
                  (take 3 Timelines.two_measures_cmds) eq_refl
                  ltac:(vm_compute; reflexivity))).
  vm_compute. lia.
Defined.

(** ** Tempo 0 *)

Lemma divf_zero_not_finite (x : FP.float) :
  FP.trunc (FP.divf x (FP.float_of_Z 0)) = None.
Proof. destruct x as [s|s| |s m e]; reflexivity. Qed.

Lemma to_uint32_cases (x : FP.float) :
  (exists z, FP.to_uint32 x = Ok z) \/ FP.to_uint32 x = Undef.
Proof.
  unfold FP.to_uint32. destruct (FP.trunc x) as [z|]; [|right; reflexivity].
  destruct ((0 <=? z) && (z <? 2 ^ 32)); [left; eexists|right]; reflexivity.
Qed.

(** X16: with a tempo of 0 (what [toUInt] gives [bpm] for a per-minute
    text that is not a number) no note can be turned into a command: the
    duration [length * 60 * 1000 / bpm] is a division by zero, infinite
    or not a number, and its conversion to [uint32_t] is undefined. *)
Theorem noteToCmd_tempo_zero (c : Composition) (note : Note)
    (chan : Channel) (jingleIdx noteIdx chordIdx : Z) :
  bpm c = 0 -> noteToCmd c note chan jingleIdx noteIdx chordIdx = Undef.
Proof.
  intros Hb. unfold noteToCmd. rewrite Hb.
  assert (Hd : forall x, FP.to_uint32 (FP.divf x (FP.float_of_Z 0)) = Undef).
  { intros x. unfold FP.to_uint32. rewrite divf_zero_not_finite.
    reflexivity. }
  destruct (chordIdx <? size (frequencies note)).
  - unfold at_index. destruct (frequencies note !! Z.to_nat chordIdx) as [f|];
      [|reflexivity].
    simpl of_option. rewrite bind_Ok_l.
    destruct (to_uint32_cases (FP.mulf f (octaveAdjust c))) as [[z Hz]|Hz];
      rewrite Hz; [|reflexivity].
    rewrite bind_Ok_l, Hd. reflexivity.
  - rewrite bind_Ok_l, Hd. reflexivity.
Qed.

Lemma noteToCmd_tempo_zero_witness :
  noteToCmd (set_bpm 0 Examples.two_measures) Examples.a4 RIGHT 5 0 0 = Undef.
Proof.
  apply (noteToCmd_tempo_zero (set_bpm 0 Examples.two_measures) Examples.a4
           RIGHT 5 0 0 eq_refl).
Defined.

(** ** Where the capacity estimate is defined *)

Lemma memUsage_loop_defined (part_r part_l : Part) (n : nat) :
  forall (idx cnt : Z),
    0 <= idx ->
    (Z.to_nat idx + n <= List.length (measures part_r))%nat ->
    (Z.to_nat idx + n <= List.length (measures part_l))%nat ->
    exists v, memUsage_loop n idx part_r part_l cnt = Ok v.
Proof.
  induction n as [|n IH]; intros idx cnt Hi Hr Hl; simpl.
  - eexists. reflexivity.
  - destruct (lookup_lt_is_Some_2 (measures part_r) (Z.to_nat idx))
      as [mr Hmr]; [lia|].
    destruct (lookup_lt_is_Some_2 (measures part_l) (Z.to_nat idx))
      as [ml Hml]; [lia|].
    unfold at_index. rewrite Hmr, Hml. simpl. apply IH; lia.
Qed.

Lemma memUsage_loop_undef (part_r part_l : Part) (n : nat) :
  forall (idx cnt : Z),
    0 <= idx -> (0 < n)%nat ->
    (List.length (measures part_r) < Z.to_nat idx + n)%nat \/
    (List.length (measures part_l) < Z.to_nat idx + n)%nat ->
    memUsage_loop n idx part_r part_l cnt = Undef.
Proof.
  induction n as [|n IH]; intros idx cnt Hi Hn Hout; [lia|].
  simpl. unfold at_index.
  destruct (measures part_r !! Z.to_nat idx) as [mr|] eqn:Hmr;
    [|reflexivity].
  destruct (measures part_l !! Z.to_nat idx) as [ml|] eqn:Hml;
    [|reflexivity].
  simpl. apply lookup_lt_Some in Hmr, Hml.
  apply IH; lia.
Qed.

(** X17: [getMemUsage] reads [parts[partIdxR]], [parts[partIdxL]] and the
    measures [measStartIdx, measEndIdx) of both without a bounds check.
    It returns (0) exactly when both parts exist and a non-empty range
    ends within both parts; otherwise it indexes a vector out of its
    bounds, as it does on a composition without parts. *)
Theorem getMemUsage_defined_iff (c : Composition) :
  0 <= measStartIdx c ->
  (memUsage_in_bounds c -> getMemUsage c = Ok 0) /\
  (~ memUsage_in_bounds c -> getMemUsage c = Undef).
Proof.
  intros Hs. unfold getMemUsage, memUsage_byte_cnt, getPartIdx,
    getMeasStartIdx, getMeasEndIdx, at_index.
  split.
  - intros (pr & pl & Hr & Hl & Hin). rewrite Hr, Hl. simpl.
    destruct (Z_lt_dec (measStartIdx c) (measEndIdx c)) as [Hlt|Hge].
    + destruct (Hin Hlt) as [H1 H2]. unfold size in *.
      destruct (memUsage_loop_defined pr pl
                  (Z.to_nat (measEndIdx c - measStartIdx c))
                  (measStartIdx c) NUM_JINGLE_HDR_BYTES Hs) as [v Hv];
        [lia | lia |].
      rewrite Hv. reflexivity.
    + replace (Z.to_nat (measEndIdx c - measStartIdx c)) with O by lia.
      reflexivity.
  - intros Hout.
    destruct (parts c !! Z.to_nat (partIdxR c)) as [pr|] eqn:Hr;
      [|reflexivity].
    destruct (parts c !! Z.to_nat (partIdxL c)) as [pl|] eqn:Hl;
      [|reflexivity].
    simpl.
    destruct (Z_lt_dec (measStartIdx c) (measEndIdx c)) as [Hlt|Hge].
    + rewrite memUsage_loop_undef; [reflexivity | exact Hs | lia |].
      destruct (Z_le_dec (measEndIdx c) (size (measures pr))) as [H1|H1];
        [destruct (Z_le_dec (measEndIdx c) (size (measures pl))) as [H2|H2]|].
      * exfalso. apply Hout. exists pr, pl. rewrite Hr, Hl.
        repeat split; assumption.
      * right. unfold size in H2. lia.
      * left. unfold size in H1. lia.
    + exfalso. apply Hout. exists pr, pl. rewrite Hr, Hl.
      repeat split; lia.
Qed.

Lemma getMemUsage_defined_iff_witness : getMemUsage newComposition = Undef.
Proof.
  apply (proj2 (getMemUsage_defined_iff newComposition (Z.le_refl 0))).
  intros (pr & pl & H & _). discriminate.
Defined.

(** ** Where a note can be stored *)

(** X18: [parseXmlNote] appends at most one part before it takes
    [parts[currPart]].  A note without the chord marker is stored (or
    refused with an error code) exactly when the cursor is at most the
    number of parts; with the cursor further on, as after backups that
    follow each other without a note in between, [parts] is indexed out
    of its bounds. *)
Theorem storeNote_defined_iff (nf : NoteFields) (c : Composition) :
  nf_isChord nf = false -> 0 <= currPart c ->
  (currPart c <= size (parts c) ->
   exists code c',
     storeNote nf c = Ok (code, c') /\
     currentNotes c'
     = currentNotes c ++ [mkNote [nf_frequency nf] (nf_length nf)]) /\
  (size (parts c) < currPart c -> storeNote nf c = Undef).
Proof.
  intros Hch H0. split.
  - intros Hle.
    destruct (storeNote_finds_measure c (conj H0 Hle))
      as (part & meas & Hp & Hm & Hnm).
    unfold storeNote. rewrite Hp, bind_Ok_l, Hm. simpl of_option.
    rewrite bind_Ok_l, Hch. cbv zeta.
    match goal with
    | |- context [set_parts ?ps c] => set (c2 := set_parts ps c)
    end.
    assert (Hn2 : currentNotes c2
                  = currentNotes c ++ [mkNote [nf_frequency nf] (nf_length nf)]).
    { subst c2. unfold currentNotes at 1. simpl.
      apply at_index_lookup in Hp. pose proof (lookup_lt_Some _ _ _ Hp) as Hlt.
      rewrite list_lookup_insert_eq by exact Hlt. simpl.
      apply last_Some in Hm. destruct Hm as [ms Hms]. rewrite Hms.
      rewrite set_back_snoc, last_snoc. simpl. rewrite Hnm. reflexivity. }
    destruct (backups c2) as [|top rest] eqn:Hb.
    + exists NO_ERROR, c2. split; [reflexivity | exact Hn2].
    + destruct (top <? nf_raw_xml_duration nf).
      * exists XML_PARSE, c2. split; [reflexivity | exact Hn2].
      * eexists NO_ERROR, _. split; [reflexivity | exact Hn2].
  - intros Hgt. unfold storeNote, at_index.
    replace (size (parts c) <=? currPart c) with true
      by (symmetry; apply Z.leb_le; lia).
    rewrite lookup_ge_None_2; [reflexivity|].
    rewrite length_app. unfold size in Hgt. simpl. lia.
Qed.

Lemma storeNote_defined_iff_witness :
  storeNote BackupExample.short_fields
    (openBackup 4 (openBackup 4 newComposition)) = Undef.
Proof.
  apply (proj2 (storeNote_defined_iff BackupExample.short_fields
                  (openBackup 4 (openBackup 4 newComposition))
                  eq_refl (Z.lt_le_incl 0 2 eq_refl))).
  reflexivity.
Defined.

(** ** The line editor *)

Module CmdLineProps.
Import CmdLine.

(** The loop stays inside the buffer and ends within its fuel. *)
Lemma editLoop_safe (fuel : nat) :
  forall (buff : list Z) (rd_idx wr_idx buff_cnt bound : Z),
    0 <= wr_idx <= rd_idx -> rd_idx <= bound ->
    0 <= buff_cnt <= bound -> bound <= size buff ->
    bound - rd_idx <= Z.of_nat fuel ->
    exists buff' buff_cnt',
      editLoop fuel buff rd_idx wr_idx buff_cnt = Ok (buff', buff_cnt') /\
      List.length buff' = List.length buff /\
      0 <= buff_cnt' <= buff_cnt.
Proof.
  induction fuel as [|fuel IH];
    intros buff rd wr cnt bound Hwr Hrd Hcnt Hb Hf; simpl.
  - replace (rd <? cnt) with false by (symmetry; apply Z.ltb_ge; lia).
    exists buff, cnt. repeat split; lia.
  - destruct (rd <? cnt) eqn:E.
    + apply Z.ltb_lt in E. unfold at_index, size in *.
      destruct (lookup_lt_is_Some_2 buff (Z.to_nat rd)) as [ch Hch]; [lia|].
      rewrite Hch. simpl of_option. rewrite bind_Ok_l.
      destruct ((ch =? 127) || (ch =? 8)).
      * destruct (IH buff (rd + 1)
                    (if wr =? 0 then wr else wr - 1)
                    (if 1 <? cnt then cnt - 2 else 0) bound)
          as (buff' & cnt' & H & Hl & Hc); try lia.
        { destruct (wr =? 0) eqn:Ew; [lia|]. apply Z.eqb_neq in Ew. lia. }
        { destruct (1 <? cnt) eqn:E1; [|lia]. apply Z.ltb_lt in E1. lia. }
        exists buff', cnt'. split; [exact H|]. split; [exact Hl|].
        destruct (1 <? cnt) eqn:E1; [apply Z.ltb_lt in E1|]; lia.
      * destruct (lookup_lt_is_Some_2 buff (Z.to_nat wr)) as [old Hold];
          [lia|].
        rewrite Hold. simpl of_option. rewrite bind_Ok_l.
        destruct (IH (<[Z.to_nat wr := ch]> buff) (rd + 1) (wr + 1) cnt bound)
          as (buff' & cnt' & H & Hl & Hc); try lia.
        { rewrite length_insert. lia. }
        exists buff', cnt'. rewrite length_insert in Hl.
        repeat split; try assumption; lia.
    + exists buff, cnt. repeat split; lia.
Qed.

(** With no erasing byte among the unread ones and the write index at the
    read index the loop changes nothing. *)
Lemma editLoop_plain (fuel : nat) :
  forall (buff : list Z) (rd_idx buff_cnt : Z),
    0 <= rd_idx -> buff_cnt <= size buff ->
    buff_cnt - rd_idx <= Z.of_nat fuel ->
    (forall i ch, rd_idx <= i < buff_cnt -> buff !! Z.to_nat i = Some ch ->
                  erases ch = false) ->
    editLoop fuel buff rd_idx rd_idx buff_cnt = Ok (buff, buff_cnt).
Proof.
  induction fuel as [|fuel IH]; intros buff rd cnt Hrd Hb Hf Hplain; simpl.
  - replace (rd <? cnt) with false by (symmetry; apply Z.ltb_ge; lia).
    reflexivity.
  - destruct (rd <? cnt) eqn:E; [|reflexivity].
    apply Z.ltb_lt in E. unfold at_index, size in *.
    destruct (lookup_lt_is_Some_2 buff (Z.to_nat rd)) as [ch Hch]; [lia|].
    rewrite Hch. simpl of_option. rewrite bind_Ok_l.
    pose proof (Hplain rd ch ltac:(lia) Hch) as He. unfold erases in He.
    rewrite He. rewrite list_insert_id by exact Hch.
    apply IH; try lia. intros i c Hi Hc. apply (Hplain i c); [lia | exact Hc].
Qed.

(** X19: bytes received without a delete or backspace among them are
    kept as they are: the buffer is unchanged, the count grows by the
    number of bytes received and the echoed line is the old line followed
    by the new bytes. *)
Theorem editReceived_plain (buff : list Z) (buff_cnt bytes_rcvd : Z) :
  0 <= buff_cnt -> 0 <= bytes_rcvd ->
  buff_cnt + bytes_rcvd <= size buff ->
  (forall i ch,
      buff_cnt <= i < buff_cnt + bytes_rcvd ->
      buff !! Z.to_nat i = Some ch -> erases ch = false) ->
  editReceived buff buff_cnt bytes_rcvd
  = Ok (buff, buff_cnt + bytes_rcvd,
        take (Z.to_nat (buff_cnt + bytes_rcvd)) buff).
Proof.
  intros H0 Hk Hb Hplain. unfold editReceived.
  rewrite editLoop_plain; try assumption; [reflexivity | lia].
Qed.

Lemma editReceived_plain_witness :
  editReceived [104; 105; 0; 0] 0 2
  = Ok ([104; 105; 0; 0], 0 + 2, take (Z.to_nat (0 + 2)) [104; 105; 0; 0]).
Proof.
  apply (editReceived_plain [104; 105; 0; 0] 0 2); try (vm_compute; congruence).
  intros i ch Hi Hl.
  assert (Hc : i = 0 \/ i = 1) by lia.
  destruct Hc as [-> | ->]; vm_compute in Hl; injection Hl as <-; reflexivity.
Defined.

(** X20: one delete or backspace byte received on its own takes the last
    byte off the line: the count goes down by one, or stays 0 on an empty
    line, and the bytes before are untouched. *)
Theorem editReceived_erase (buff : list Z) (buff_cnt ch : Z) :
  0 <= buff_cnt -> buff !! Z.to_nat buff_cnt = Some ch ->
  erases ch = true ->
  editReceived buff buff_cnt 1
  = Ok (buff, Z.max 0 (buff_cnt - 1),
        take (Z.to_nat (buff_cnt - 1)) buff).
Proof.
  intros H0 Hch He. unfold editReceived.
  change (Z.to_nat 1) with 1%nat. cbn [editLoop].
  replace (buff_cnt <? buff_cnt + 1) with true
    by (symmetry; apply Z.ltb_lt; lia).
  unfold at_index. rewrite Hch. simpl of_option. rewrite bind_Ok_l.
  unfold erases in He. rewrite He.
  destruct (1 <? buff_cnt + 1) eqn:E.
  - apply Z.ltb_lt in E.
    replace (buff_cnt + 1 <? buff_cnt + 1 - 2) with false
      by (symmetry; apply Z.ltb_ge; lia).
    rewrite bind_Ok_l.
    replace (buff_cnt + 1 - 2) with (buff_cnt - 1) by lia.
    replace (Z.max 0 (buff_cnt - 1)) with (buff_cnt - 1) by lia.
    reflexivity.
  - apply Z.ltb_ge in E.
    replace (buff_cnt + 1 <? 0) with false
      by (symmetry; apply Z.ltb_ge; lia).
    rewrite bind_Ok_l.
    replace (Z.max 0 (buff_cnt - 1)) with 0 by lia.
    replace (Z.to_nat (buff_cnt - 1)) with (Z.to_nat 0) by lia.
    reflexivity.
Qed.

Lemma editReceived_erase_witness :
  editReceived [104; 105; 8; 0] 2 1
  = Ok ([104; 105; 8; 0], Z.max 0 (2 - 1),
        take (Z.to_nat (2 - 1)) [104; 105; 8; 0]).
Proof.
  apply (editReceived_erase [104; 105; 8; 0] 2 8); reflexivity || lia.
Defined.

(** X21: whatever bytes were received, as long as they fit the buffer the
    loop never reads or writes outside it, ends within [bytes_rcvd]
    iterations, keeps the size of the buffer and leaves a count between 0
    and the old count plus the bytes received. *)
Theorem editReceived_safe (buff : list Z) (buff_cnt bytes_rcvd : Z) :
  0 <= buff_cnt -> 0 <= bytes_rcvd ->
  buff_cnt + bytes_rcvd <= size buff ->
  exists buff' buff_cnt',
    editReceived buff buff_cnt bytes_rcvd
    = Ok (buff', buff_cnt', take (Z.to_nat buff_cnt') buff') /\
    List.length buff' = List.length buff /\
    0 <= buff_cnt' <= buff_cnt + bytes_rcvd.
Proof.
  intros H0 Hk Hb. unfold editReceived.
  destruct (editLoop_safe (Z.to_nat bytes_rcvd) buff buff_cnt buff_cnt
              (buff_cnt + bytes_rcvd) (buff_cnt + bytes_rcvd))
    as (buff' & cnt' & H & Hl & Hc); try lia.
  exists buff', cnt'. rewrite H. repeat split; try assumption; lia.
Qed.

Lemma editReceived_safe_witness :
  exists buff' buff_cnt',
    editReceived [104; 8; 105; 0] 1 2
    = Ok (buff', buff_cnt', take (Z.to_nat buff_cnt') buff') /\
    List.length buff' = List.length [104; 8; 105; 0] /\
    0 <= buff_cnt' <= 1 + 2.
Proof.
  apply (editReceived_safe [104; 8; 105; 0] 1 2); vm_compute; congruence.
Defined.

End CmdLineProps.

(** ** Measure starts and part ends *)

Lemma addMeasures_lookup (c : Composition) (i : nat) (part : Part) :
  parts c !! i = Some part ->
  parts (addMeasures c) !! i
  = Some (if currPart c <=? Z.of_nat i
          then mkPart (measures part ++ [emptyMeasure]) else part).
Proof.
  intros H. unfold addMeasures. simpl. rewrite list_lookup_imap, H.
  reflexivity.
Qed.

(** X22: a measure start tag and a part end tag met while every open
    backup scope has its counter at 0 (stacks of equal depth).  Both
    close all scopes and take the cursor back to the part [home] the
    outermost scope was opened from (the cursor itself when no scope is
    open).  The measure start then gives one new empty measure to every
    part from [home] on and leaves the parts before [home] as they are;
    the part end moves the cursor to [home + 1] and leaves all parts as
    they are. *)
Theorem boundary_closes_scopes (toUInt toInt : string -> Z)
    (cur t : Token) (ts : list Token) (c : Composition) :
  stacks_balanced c ->
  Forall (fun b => b = 0) (backups c) ->
  let home := default (currPart c) (last (prevParts c)) in
  (tokenType t = StartElement -> name t = "measure" ->
   exists c',
     parse_turn toUInt toInt (mkReader cur (t :: ts)) c
     = Ok (Continue (mkReader t ts) c') /\
     backups c' = [] /\ prevParts c' = [] /\ currPart c' = home /\
     List.length (parts c') = List.length (parts c) /\
     forall i part,
       parts c !! i = Some part ->
       parts c' !! i
       = Some (if home <=? Z.of_nat i
               then mkPart (measures part ++ [emptyMeasure]) else part)) /\
  (tokenType t = EndElement -> name t = "part" ->
   exists c',
     parse_turn toUInt toInt (mkReader cur (t :: ts)) c
     = Ok (Continue (mkReader t ts) c') /\
     backups c' = [] /\ prevParts c' = [] /\
     currPart c' = wrap32 (home + 1) /\ parts c' = parts c).
Proof.
  intros B Hz home.
  assert (Hd : drainBackups c
               = Ok (NO_ERROR, set_cursor [] [] home c)).
  { unfold drainBackups.
    rewrite (drain_zeros (backups c) c [] Hz); try exact I.
    - unfold stacks_balanced in B. rewrite B, drop_all, firstn_all.
      reflexivity.
    - rewrite app_nil_r. reflexivity.
    - unfold stacks_balanced in B. lia. }
  split; intros Hty Hname.
  - exists (addMeasures (set_cursor [] [] home c)). split.
    + unfold parse_turn, readNext, is_start, named. simpl.
      rewrite Hty, Hname. simpl. rewrite Hd. reflexivity.
    + repeat split.
      * unfold addMeasures. simpl. apply length_imap.
      * intros i part Hi.
        apply (addMeasures_lookup (set_cursor [] [] home c) i part Hi).
  - exists (set_currPart (wrap32 (home + 1)) (set_cursor [] [] home c)). split.
    + unfold parse_turn, readNext, is_start, named. simpl.
      rewrite Hty, Hname. simpl. rewrite Hd. reflexivity.
    + repeat split.
Qed.

Lemma boundary_closes_scopes_witness :
  exists c',
    parse_turn Qt.toUInt Qt.toInt
      (mkReader (Examples.close_tag "note") [Examples.open_tag "measure"])
      (set_cursor [0] [0] 1 Timelines.two_voices)
    = Ok (Continue (mkReader (Examples.open_tag "measure") []) c') /\
    backups c' = [] /\ prevParts c' = [] /\
    currPart c' = default 1 (last [0]) /\
    List.length (parts c') = List.length (parts Timelines.two_voices) /\
    forall i part,
      parts (set_cursor [0] [0] 1 Timelines.two_voices) !! i = Some part ->
      parts c' !! i
      = Some (if default 1 (last [0]) <=? Z.of_nat i
              then mkPart (measures part ++ [emptyMeasure]) else part).
Proof.
  apply (proj1 (boundary_closes_scopes Qt.toUInt Qt.toInt
                  (Examples.close_tag "note") (Examples.open_tag "measure")
                  [] (set_cursor [0] [0] 1 Timelines.two_voices)
                  eq_refl ltac:(repeat constructor))); reflexivity.
Defined.

(** ** Documents that do not end *)

Lemma readNext_suffix (xml : QXmlStreamReader) :
  pending (readNext xml) `suffix_of` pending xml.
Proof.
  unfold readNext. destruct (pending xml) as [|t ts]; simpl.
  - reflexivity.
  - apply suffix_cons_r. reflexivity.
Qed.

Ltac suffix_trans :=
  repeat first [assumption | reflexivity | (etrans; [eassumption|])].

Section Suffix.

Variable toUInt : string -> Z.
Variable toInt : string -> Z.

Lemma pitch_children_suffix (n : nat) :
  forall (xml xml' : QXmlStreamReader) step alter octave r,
    pitch_children toInt n xml step alter octave = Ok (xml', r) ->
    pending xml' `suffix_of` pending xml.
Proof.
  induction n as [|n IH]; intros xml xml' step alter octave r H;
    [discriminate|].
  simpl in H.
  pose proof (readNext_suffix xml) as H1.
  pose proof (readNext_suffix (readNext xml)) as H2.
  repeat case_match; simplify_eq; try assumption;
    try (apply IH in H; suffix_trans).
  all: bind_inv H; apply IH in H; suffix_trans.
Qed.

Lemma parseXmlPitch_suffix (xml xml' : QXmlStreamReader) freq freq' code :
  parseXmlPitch toInt xml freq = Ok (code, xml', freq') ->
  pending xml' `suffix_of` pending xml.
Proof.
  unfold parseXmlPitch. intros H. case_match.
  - simplify_eq. reflexivity.
  - bind_inv H. destruct a as [xml1 [[step alter] octave]].
    apply pitch_children_suffix in E. bind_inv H. destruct a as [c f].
    simplify_eq. exact E.
Qed.

Lemma backup_children_suffix (n : nat) :
  forall (xml xml' : QXmlStreamReader) duration duration',
    backup_children toUInt n xml duration = Ok (xml', duration') ->
    pending xml' `suffix_of` pending xml.
Proof.
  induction n as [|n IH]; intros xml xml' duration duration' H;
    [discriminate|].
  simpl in H.
  pose proof (readNext_suffix xml) as H1.
  pose proof (readNext_suffix (readNext xml)) as H2.
  repeat case_match; simplify_eq; try assumption;
    apply IH in H; suffix_trans.
Qed.

Lemma parseXmlBackup_suffix (xml xml' : QXmlStreamReader) c c' code :
  parseXmlBackup toUInt xml c = Ok (code, xml', c') ->
  pending xml' `suffix_of` pending xml.
Proof.
  unfold parseXmlBackup. intros H. case_match.
  - simplify_eq. reflexivity.
  - bind_inv H. destruct a as [xml1 duration].
    apply backup_children_suffix in E. case_match; simplify_eq; exact E.
Qed.

Lemma note_children_suffix (n : nat) :
  forall divisions (xml xml' : QXmlStreamReader) nf nf' code,
    note_children toUInt toInt n divisions xml nf = Ok (code, xml', nf') ->
    pending xml' `suffix_of` pending xml.
Proof.
  induction n as [|n IH]; intros divisions xml xml' nf nf' code H;
    [discriminate|].
  simpl in H.
  pose proof (readNext_suffix xml) as H1.
  pose proof (readNext_suffix (readNext xml)) as H2.
  repeat case_match; simplify_eq; try assumption;
    try (apply IH in H; suffix_trans).
  bind_inv H. destruct a as [[code1 xml1] frequency].
  apply parseXmlPitch_suffix in E.
  case_bool_decide.
  - apply IH in H. suffix_trans.
  - simplify_eq. suffix_trans.
Qed.

Lemma parseXmlNote_suffix (xml xml' : QXmlStreamReader) c c' code :
  parseXmlNote toUInt toInt xml c = Ok (code, xml', c') ->
  pending xml' `suffix_of` pending xml.
Proof.
  unfold parseXmlNote. intros H. case_match.
  - simplify_eq. reflexivity.
  - bind_inv H. bind_inv H. destruct a0 as [[code1 xml1] nf].
    apply note_children_suffix in E0.
    case_bool_decide.
    + bind_inv H. destruct a0 as [code2 c2]. simplify_eq. exact E0.
    + simplify_eq. exact E0.
Qed.

(** A turn goes on with tokens that were pending before, and returns
    [NO_ERROR] only on an end-of-document token. *)
Lemma parse_turn_suffix (xml xml' : QXmlStreamReader) c c' :
  parse_turn toUInt toInt xml c = Ok (Continue xml' c') ->
  pending xml' `suffix_of` pending xml.
Proof.
  intros H.
  pose proof (readNext_suffix xml) as H1.
  pose proof (readNext_suffix (readNext xml)) as H2.
  unfold parse_turn, continue_if_ok in H.
  repeat case_match; simplify_eq; try assumption; try suffix_trans.
  - bind_inv H. destruct a as [[code xml1] c1].
    apply parseXmlNote_suffix in E. case_bool_decide; simplify_eq.
    suffix_trans.
  - bind_inv H. destruct a as [[code xml1] c1].
    apply parseXmlBackup_suffix in E. case_bool_decide; simplify_eq.
    suffix_trans.
  - bind_inv H. destruct a as [code c1].
    case_bool_decide; simplify_eq. assumption.
  - bind_inv H. destruct a as [code c1].
    case_bool_decide; simplify_eq. assumption.
Qed.

Lemma parse_turn_return_ok (xml : QXmlStreamReader) c c' :
  parse_turn toUInt toInt xml c = Ok (Return NO_ERROR c') ->
  exists t, t ∈ pending xml /\ tokenType t = EndDocument.
Proof.
  unfold parse_turn, continue_if_ok. intros H.
  destruct (bool_decide (tokenType (current (readNext xml)) = EndDocument))
    eqn:E.
  - apply bool_decide_eq_true in E. unfold readNext in E.
    destruct (pending xml) as [|t ts]; [discriminate|].
    exists t. split; [apply list_elem_of_here | exact E].
  - exfalso.
    repeat case_match; simplify_eq.
    all: bind_inv H; repeat case_match; simplify_eq.
    all: repeat case_bool_decide; simplify_eq.
Qed.

Lemma parse_loop_ok_end (n : nat) :
  forall (xml : QXmlStreamReader) c c',
    parse_loop toUInt toInt n xml c = Ok (NO_ERROR, c') ->
    exists t, t ∈ pending xml /\ tokenType t = EndDocument.
Proof.
  induction n as [|n IH]; intros xml c c' H; simpl in H; [discriminate|].
  bind_inv H. destruct a as [xml1 c1|code1 c1].
  - apply IH in H. destruct H as (t & Ht & Hty).
    apply parse_turn_suffix in E. destruct E as [k Hk].
    exists t. split; [|exact Hty]. rewrite Hk. apply elem_of_app. right.
    exact Ht.
  - injection H as -> <-. eapply parse_turn_return_ok. eassumption.
Qed.

End Suffix.

(** X23: [parse] returns [NO_ERROR] only after it has read an
    end-of-document token.  On a token sequence without one (the reader
    reports [Invalid] for ever after an XML error or a cut-off file) the
    loop can only be left through an error of a handler; otherwise it
    never ends. *)
Theorem parse_success_needs_end_of_document (toUInt toInt : string -> Z)
    (tokens : list Token) (c c' : Composition) :
  parse toUInt toInt (Some tokens) c = Ok (NO_ERROR, c') ->
  exists t, t ∈ tokens /\ tokenType t = EndDocument.
Proof.
  unfold parse. intros H. apply parse_loop_ok_end in H. exact H.
Qed.

Lemma parse_success_needs_end_of_document_witness :
  exists t, t ∈ Documents.two_voices /\ tokenType t = EndDocument.
Proof.
  apply (parse_success_needs_end_of_document Qt.toUInt Qt.toInt
           Documents.two_voices newComposition Timelines.two_voices).
  vm_compute. reflexivity.
Defined.

(** ** Notes without a pitch *)

Lemma readNext_split (xml : QXmlStreamReader) :
  (pending xml = [] /\ readNext xml = dry) \/
  pending xml = current (readNext xml) :: pending (readNext xml).
Proof.
  unfold readNext. destruct (pending xml) as [|t ts]; [left | right];
    split || reflexivity; reflexivity.
Qed.

Section Rests.

Variable toUInt : string -> Z.
Variable toInt : string -> Z.

(** What the loop over the children of a note has read, and that the
    frequency is only set by a pitch element. *)
Lemma note_children_frequency (n : nat) :
  forall divisions (xml xml' : QXmlStreamReader) nf nf' code,
    note_children toUInt toInt n divisions xml nf = Ok (code, xml', nf') ->
    exists consumed,
      pending xml = consumed ++ pending xml' /\
      (forallb (fun t => negb (pitch_start t)) consumed = true ->
       code = NO_ERROR /\ nf_frequency nf' = nf_frequency nf).
Proof.
  induction n as [|n IH]; intros divisions xml xml' nf nf' code H;
    [discriminate|].
  simpl in H.
  assert (Hstep : forall xml1 nf1,
             nf_frequency nf1 = nf_frequency nf ->
             note_children toUInt toInt n divisions xml1 nf1
             = Ok (code, xml', nf') ->
             forall pre, pending xml = pre ++ pending xml1 ->
             exists consumed,
               pending xml = consumed ++ pending xml' /\
               (forallb (fun t => negb (pitch_start t)) consumed = true ->
                code = NO_ERROR /\ nf_frequency nf' = nf_frequency nf)).
  { intros xml1 nf1 Hf H1 pre Hpre.
    destruct (IH _ _ _ _ _ _ H1) as (k & Hk & Hok).
    exists (pre ++ k). split; [rewrite Hpre, Hk, app_assoc; reflexivity|].
    intros Hall. rewrite forallb_app in Hall.
    apply andb_true_iff in Hall. destruct Hall as [_ Hall].
    destruct (Hok Hall) as [-> ->]. split; [reflexivity | exact Hf]. }
  assert (Hone : exists pre, pending xml = pre ++ pending (readNext xml)).
  { destruct (readNext_split xml) as [[Hp ->]|Hp].
    - exists []. rewrite Hp. reflexivity.
    - exists [current (readNext xml)]. exact Hp. }
  assert (Htwo : exists pre,
             pending xml = pre ++ pending (readNext (readNext xml))).
  { destruct Hone as [pre1 H1].
    destruct (readNext_split (readNext xml)) as [[Hp Hd]|Hp].
    - exists pre1. rewrite Hd. simpl. rewrite H1, Hp. reflexivity.
    - exists (pre1 ++ [current (readNext (readNext xml))]).
      rewrite H1 at 1. rewrite Hp at 1. rewrite <- app_assoc. reflexivity. }
  destruct Hone as [pre1 Hpre1]. destruct Htwo as [pre2 Hpre2].
  destruct (at_element EndElement "note" (readNext xml)) eqn:Eend.
  { injection H as <- <- <-. exists pre1. split; [exact Hpre1|].
    intros _. split; reflexivity. }
  destruct (is_start (readNext xml)) eqn:Es;
    [|refine (Hstep _ _ _ H _ Hpre1); reflexivity].
  destruct (named "pitch" (readNext xml)) eqn:Ep.
  { (* a pitch start tag is among the tokens read *)
    bind_inv H. destruct a as [[code1 xml1] frequency].
    assert (Hsuf : pending xml' `suffix_of` pending (readNext xml)).
    { apply parseXmlPitch_suffix in E. case_bool_decide.
      - apply note_children_suffix in H. suffix_trans.
      - simplify_eq. exact E. }
    destruct Hsuf as [k Hk].
    destruct (readNext_split xml) as [[Hp Hd]|Hp].
    { rewrite Hd in Es. discriminate. }
    exists (current (readNext xml) :: k). split.
    { rewrite Hp, Hk. reflexivity. }
    intros Hall. simpl in Hall. apply andb_true_iff in Hall.
    destruct Hall as [Hall _]. unfold pitch_start in Hall.
    unfold is_start in Es. unfold named in Ep.
    rewrite Es, Ep in Hall. discriminate. }
  destruct (named "duration" (readNext xml));
    [refine (Hstep _ _ _ H _ Hpre2); reflexivity|].
  destruct (named "chord" (readNext xml));
    refine (Hstep _ _ _ H _ Hpre1); reflexivity.
Qed.

End Rests.

(** X24: when there is no pitch start tag among the tokens the loop over
    the children of a note element has read (a rest), the loop ends
    without error and the frequency it hands on is still the 0 that
    [parseXmlNote] starts from: a rest becomes a note of frequency 0. *)
Theorem note_without_pitch_has_frequency_zero (toUInt toInt : string -> Z)
    (xml xml' : QXmlStreamReader) (divisions : Z) (consumed : list Token)
    (code : ErrorCode) (nf : NoteFields) :
  note_children toUInt toInt (tokens_left xml) divisions xml noNoteFields
  = Ok (code, xml', nf) ->
  pending xml = consumed ++ pending xml' ->
  forallb (fun t => negb (pitch_start t)) consumed = true ->
  code = NO_ERROR /\ nf_frequency nf = FP.zero.
Proof.
  intros H Hc Hall.
  destruct (note_children_frequency toUInt toInt _ _ _ _ _ _ _ H)
    as (k & Hk & Hok).
  assert (k = consumed).
  { rewrite Hc in Hk. apply app_inv_tail in Hk. congruence. }
  subst k. apply Hok, Hall.
Qed.

Lemma note_without_pitch_has_frequency_zero_witness :
  NO_ERROR = NO_ERROR /\
  nf_frequency (mkNoteFields FP.zero (S754_finite false 8388608 (-22)) 8 false)
  = FP.zero.
Proof.
  apply (note_without_pitch_has_frequency_zero Qt.toUInt Qt.toInt
           (mkReader (Examples.open_tag "note")
              ([Examples.open_tag "rest"; Examples.close_tag "rest"] ++
               Examples.element "duration" "8" ++
               [Examples.close_tag "note"; Examples.end_document]))
           (mkReader (Examples.close_tag "note") [Examples.end_document])
           4
           ([Examples.open_tag "rest"; Examples.close_tag "rest"] ++
            Examples.element "duration" "8" ++ [Examples.close_tag "note"])
           NO_ERROR
           (mkNoteFields FP.zero (S754_finite false 8388608 (-22)) 8 false));
    reflexivity.
Defined.
